(** * Winston: line buffer, key dispatch and applet router

    A shallow embedding of [winston/dialogs.py], [winston/anchor.py] and
    [winston/applets/editor.py].

    - Python [str] is [string]; a character stands for one code point.
    - Line numbers and offsets are [nat]: every method guards its
      decrements ([> 0] before [-= 1]), so non-negative positions stay
      non-negative.  A field that can hold [None] is an [option], and
      [None] behaves as in Python: it is no index and no operand of
      arithmetic or ordering ([TypeError]), and as a slice bound it means
      "no bound".
    - A method mutates [self] and may raise: it is a computation in the
      monad [M], which threads the object and keeps whatever was already
      mutated when an exception escapes. *)

From Stdlib Require Import Ascii.
From stdpp Require Import gmap strings list.

(** ** Exceptions and the state/exception monad *)

Inductive exn : Type :=
| IndexError
| TypeError
| KeyError (k : string)
| ValueError (msg : string).

Inductive result (A : Type) : Type :=
| Ok (a : A)
| Raise (e : exn).
Arguments Ok {A} a.
Arguments Raise {A} e.

Definition M (S A : Type) : Type := S → S * result A.

Definition ret {S A} (a : A) : M S A := λ s, (s, Ok a).

Definition bind {S A B} (m : M S A) (k : A → M S B) : M S B :=
  λ s, match m s with
       | (s', Ok a) => k a s'
       | (s', Raise e) => (s', Raise e)
       end.

Definition raise {S A} (e : exn) : M S A := λ s, (s, Raise e).
Definition get {S} : M S S := λ s, (s, Ok s).
Definition modify {S} (f : S → S) : M S unit := λ s, (f s, Ok tt).
Definition lift {S A} (r : result A) : M S A := λ s, (s, r).

(** The object after the call, and how the call ended. *)
Definition exec {S A} (m : M S A) (s : S) : S := (m s).1.
Definition outcome {S A} (m : M S A) (s : S) : result A := (m s).2.

Declare Scope py_scope.
Delimit Scope py_scope with py.
Notation "x <- m ;; k" := (bind m (λ x, k))
  (at level 100, m at next level, right associativity) : py_scope.
Notation "m ;; k" := (bind m (λ _, k))
  (at level 100, right associativity) : py_scope.
Local Open Scope py_scope.

(** ** Python string and list primitives *)

(** [text[:k]] for a number [k]. *)
Fixpoint str_take (k : nat) (s : string) : string :=
  match k, s with
  | S k', String c s' => String c (str_take k' s')
  | _, _ => EmptyString
  end.

(** [text[k:]] for a number [k]. *)
Fixpoint str_drop (k : nat) (s : string) : string :=
  match k, s with
  | S k', String _ s' => str_drop k' s'
  | _, _ => s
  end.

(** [text[:k]] and [text[k:]] for a bound that may be [None]: then the
    whole text. *)
Definition slice_to (k : option nat) (s : string) : string :=
  match k with Some n => str_take n s | None => s end.

Definition slice_from (k : option nat) (s : string) : string :=
  match k with Some n => str_drop n s | None => s end.

(** [value or ""]. *)
Definition or_empty (v : option string) : string := default EmptyString v.

(** [del l[a:b]] for non-negative bounds: both are clamped to the length
    and nothing is removed when [b <= a]. *)
Definition del_slice {A} (a b : nat) (l : list A) : list A :=
  if decide (a ≤ b) then take a l ++ drop b l else l.

(** [l.insert(i, x)] for non-negative [i]: at the end when [i] is past it. *)
Definition list_insert_at {A} (i : nat) (x : A) (l : list A) : list A :=
  take i l ++ x :: drop i l.

(** [sep.join(parts)]. *)
Fixpoint join (sep : string) (parts : list string) : string :=
  match parts with
  | [] => EmptyString
  | [p] => p
  | p :: rest => p +:+ sep +:+ join sep rest
  end.

(** [a <= b] on values that may be [None]: comparing with [None] is a
    [TypeError]. *)
Definition int_le (a b : option nat) : result bool :=
  match a, b with
  | Some x, Some y => Ok (bool_decide (x ≤ y))
  | _, _ => Raise TypeError
  end.

(** [(a1, a2) <= (b1, b2)]: the first components that differ under [==]
    decide; equal tuples compare true. *)
Definition tuple_le (a b : option nat * option nat) : result bool :=
  if decide (a.1 = b.1)
  then if decide (a.2 = b.2) then Ok true else int_le a.2 b.2
  else int_le a.1 b.1.

(** ** [class Selection] *)

Module Selection.

Record t : Type := mk {
  start_line : option nat;
  start_offset : option nat;
  end_line : option nat;
  end_offset : option nat
}.

Definition reset (s : t) : t := mk None None None None.

(** [Selection.__init__] only calls [reset]. *)
Definition init : t := mk None None None None.

Definition set_anchor (line offset : option nat) (s : t) : t :=
  mk line offset line offset.

Definition update_end (line offset : option nat) (s : t) : t :=
  mk (start_line s) (start_offset s) line offset.

Definition is_active (s : t) : bool :=
  bool_decide (start_line s ≠ None)
  && (bool_decide (start_line s ≠ end_line s)
      || bool_decide (start_offset s ≠ end_offset s)).

Definition ordered (s : t)
  : result ((option nat * option nat) * (option nat * option nat)) :=
  match tuple_le (start_line s, start_offset s) (end_line s, end_offset s) with
  | Ok true => Ok ((start_line s, start_offset s), (end_line s, end_offset s))
  | Ok false => Ok ((end_line s, end_offset s), (start_line s, start_offset s))
  | Raise e => Raise e
  end.

End Selection.

(** ** [class Dialog]: the buffer part

    [_unnamed] holds the [value] of each line node in order.  Every node is
    created by [add_line] or [split_line] and stored once, so no two
    entries alias and [line.value = v] for [line = self._unnamed[i]] is an
    update at index [i].

    [cursor_offset] starts as [0] and stays a number under the cursor
    moves and edits; it is optional here because [_delete_selection]
    stores a selection offset in it, and the selection fields may be
    [None]. *)

Module Dialog.

Record t : Type := mk {
  _unnamed : list (option string);
  cursor_line : option nat;
  cursor_offset : option nat;
  selection : Selection.t
}.

(** [Dialog.__init__]: no lines, no cursor line, offset 0, a reset
    selection. *)
Definition init : t := mk [] None (Some 0) Selection.init.

Definition set_unnamed (f : list (option string) → list (option string)) : M t unit :=
  modify (λ d, mk (f (_unnamed d)) (cursor_line d) (cursor_offset d) (selection d)).

Definition set_cursor_line (l : option nat) : M t unit :=
  modify (λ d, mk (_unnamed d) l (cursor_offset d) (selection d)).

Definition set_cursor_offset (o : option nat) : M t unit :=
  modify (λ d, mk (_unnamed d) (cursor_line d) o (selection d)).

Definition set_selection (f : Selection.t → Selection.t) : M t unit :=
  modify (λ d, mk (_unnamed d) (cursor_line d) (cursor_offset d) (f (selection d))).

(** [self._unnamed[i].value]: [None] is not an index, and an index past
    the end raises. *)
Definition value_at (i : option nat) : M t (option string) :=
  d <- get ;;
  match i with
  | None => raise TypeError
  | Some n =>
      match _unnamed d !! n with
      | Some v => ret v
      | None => raise IndexError
      end
  end.

(** [line.value = v] for the node at index [i]. *)
Definition set_value (i : nat) (v : string) : M t unit :=
  set_unnamed (λ l, <[i := Some v]> l).

(** [del self._unnamed[i]]. *)
Definition del_line (i : nat) : M t unit :=
  d <- get ;;
  if decide (i < length (_unnamed d)) then set_unnamed (delete i)
  else raise IndexError.

(** The operand of [+], [-], [<], [>] and [min]: [None] there is a
    [TypeError]. *)
Definition as_int (o : option nat) : M t nat :=
  match o with Some n => ret n | None => raise TypeError end.

Definition add_line (value : string) : M t unit :=
  set_unnamed (λ l, l ++ [Some value]) ;;
  d <- get ;;
  match cursor_line d with
  | None => set_cursor_line (Some 0)
  | Some _ => ret tt
  end.

Definition lines (d : t) : list string := or_empty <$> _unnamed d.

Definition _update_selection (is_shifted : bool)
    (prev_line prev_offset : option nat) : M t unit :=
  if is_shifted then
    d <- get ;;
    (if Selection.is_active (selection d) then ret tt
     else set_selection (Selection.set_anchor prev_line prev_offset)) ;;
    d <- get ;;
    set_selection (Selection.update_end (cursor_line d) (cursor_offset d))
  else set_selection Selection.reset.

Definition move_left (is_shifted : bool) : M t unit :=
  d <- get ;;
  match cursor_line d with
  | None => ret tt
  | Some cl =>
      let prev_line := cursor_line d in
      let prev_off := cursor_offset d in
      off <- as_int (cursor_offset d) ;;
      (if decide (0 < off) then
         set_cursor_offset (Some (off - 1))
       else if decide (0 < cl) then
         set_cursor_line (Some (cl - 1)) ;;
         v <- value_at (Some (cl - 1)) ;;
         set_cursor_offset (Some (String.length (or_empty v)))
       else ret tt) ;;
      _update_selection is_shifted prev_line prev_off
  end.

Definition move_right (is_shifted : bool) : M t unit :=
  d <- get ;;
  match cursor_line d with
  | None => ret tt
  | Some cl =>
      let prev_line := cursor_line d in
      let prev_off := cursor_offset d in
      v <- value_at (Some cl) ;;
      let line_text := or_empty v in
      off <- as_int (cursor_offset d) ;;
      (if decide (off < String.length line_text) then
         set_cursor_offset (Some (off + 1))
       else if decide (cl + 1 < length (_unnamed d)) then
         set_cursor_line (Some (cl + 1)) ;;
         set_cursor_offset (Some 0)
       else ret tt) ;;
      _update_selection is_shifted prev_line prev_off
  end.

Definition move_up (is_shifted : bool) : M t unit :=
  d <- get ;;
  match cursor_line d with
  | None => ret tt
  | Some cl =>
      if decide (cl = 0) then ret tt
      else
        let prev_line := cursor_line d in
        let prev_off := cursor_offset d in
        set_cursor_line (Some (cl - 1)) ;;
        v <- value_at (Some (cl - 1)) ;;
        let line_len := String.length (or_empty v) in
        off <- as_int (cursor_offset d) ;;
        set_cursor_offset (Some (off `min` line_len)) ;;
        _update_selection is_shifted prev_line prev_off
  end.

Definition move_down (is_shifted : bool) : M t unit :=
  d <- get ;;
  match cursor_line d with
  | None => ret tt
  | Some cl =>
      if decide (length (_unnamed d) ≤ cl + 1) then ret tt
      else
        let prev_line := cursor_line d in
        let prev_off := cursor_offset d in
        set_cursor_line (Some (cl + 1)) ;;
        v <- value_at (Some (cl + 1)) ;;
        let line_len := String.length (or_empty v) in
        off <- as_int (cursor_offset d) ;;
        set_cursor_offset (Some (off `min` line_len)) ;;
        _update_selection is_shifted prev_line prev_off
  end.

Definition move_home (is_shifted : bool) : M t unit :=
  d <- get ;;
  match cursor_line d with
  | None => ret tt
  | Some _ =>
      let prev_line := cursor_line d in
      let prev_off := cursor_offset d in
      set_cursor_offset (Some 0) ;;
      _update_selection is_shifted prev_line prev_off
  end.

Definition move_end (is_shifted : bool) : M t unit :=
  d <- get ;;
  match cursor_line d with
  | None => ret tt
  | Some cl =>
      let prev_line := cursor_line d in
      let prev_off := cursor_offset d in
      v <- value_at (Some cl) ;;
      set_cursor_offset (Some (String.length (or_empty v))) ;;
      _update_selection is_shifted prev_line prev_off
  end.

Definition _delete_selection : M t unit :=
  d <- get ;;
  ends <- lift (Selection.ordered (selection d)) ;;
  let '((s_line, s_off), (e_line, e_off)) := ends in
  (if decide (s_line = e_line) then
     v <- value_at s_line ;;
     sl <- as_int s_line ;;
     let text := or_empty v in
     set_value sl (slice_to s_off text +:+ slice_from e_off text)
   else
     v <- value_at s_line ;;
     sl <- as_int s_line ;;
     set_value sl (slice_to s_off (or_empty v)) ;;
     lv <- value_at e_line ;;
     el <- as_int e_line ;;
     let last_right := slice_from e_off (or_empty lv) in
     set_unnamed (del_slice (sl + 1) (el + 1)) ;;
     fv <- value_at s_line ;;
     set_value sl (or_empty fv +:+ last_right)) ;;
  set_cursor_line s_line ;;
  set_cursor_offset s_off ;;
  set_selection Selection.reset.

Definition insert_char (ch : string) : M t unit :=
  d <- get ;;
  (match cursor_line d with
   | None => add_line EmptyString ;; set_cursor_line (Some 0)
   | Some _ => ret tt
   end) ;;
  d <- get ;;
  (if Selection.is_active (selection d) then _delete_selection else ret tt) ;;
  d <- get ;;
  v <- value_at (cursor_line d) ;;
  cl <- as_int (cursor_line d) ;;
  let text := or_empty v in
  set_value cl (slice_to (cursor_offset d) text +:+ ch
                +:+ slice_from (cursor_offset d) text) ;;
  off <- as_int (cursor_offset d) ;;
  set_cursor_offset (Some (off + 1)).

Definition delete_left : M t unit :=
  d <- get ;;
  if Selection.is_active (selection d) then _delete_selection
  else
    match cursor_line d with
    | None => ret tt
    | Some cl =>
        if decide (cl = 0 ∧ cursor_offset d = Some 0) then ret tt
        else
          v <- value_at (Some cl) ;;
          off <- as_int (cursor_offset d) ;;
          if decide (0 < off) then
            let text := or_empty v in
            set_value cl (str_take (off - 1) text +:+ str_drop off text) ;;
            set_cursor_offset (Some (off - 1))
          else
            pv <- value_at (Some (cl - 1)) ;;
            let prev_len := String.length (or_empty pv) in
            set_value (cl - 1) (or_empty pv +:+ or_empty v) ;;
            del_line cl ;;
            set_cursor_line (Some (cl - 1)) ;;
            set_cursor_offset (Some prev_len)
    end.

Definition delete_right : M t unit :=
  d <- get ;;
  if Selection.is_active (selection d) then _delete_selection
  else
    match cursor_line d with
    | None => ret tt
    | Some cl =>
        v <- value_at (Some cl) ;;
        let text := or_empty v in
        off <- as_int (cursor_offset d) ;;
        if decide (off < String.length text) then
          set_value cl (str_take off text +:+ str_drop (off + 1) text)
        else if decide (cl + 1 < length (_unnamed d)) then
          nv <- value_at (Some (cl + 1)) ;;
          set_value cl (text +:+ or_empty nv) ;;
          del_line (cl + 1)
        else ret tt
    end.

Definition split_line : M t unit :=
  d <- get ;;
  (match cursor_line d with
   | None => add_line EmptyString ;; set_cursor_line (Some 0)
   | Some _ => ret tt
   end) ;;
  d <- get ;;
  v <- value_at (cursor_line d) ;;
  cl <- as_int (cursor_line d) ;;
  let text := or_empty v in
  let before := slice_to (cursor_offset d) text in
  let after := slice_from (cursor_offset d) text in
  set_value cl before ;;
  set_unnamed (list_insert_at (cl + 1) (Some after)) ;;
  set_cursor_line (Some (cl + 1)) ;;
  set_cursor_offset (Some 0).

End Dialog.

(** ** [winston/anchor.py]: keys and dispatch *)

(** [str.lower()] on one code point below 256: the upper-case letters are
    A-Z and the Latin-1 range 192-222 without the multiplication sign. *)
Definition char_lower (c : ascii) : ascii :=
  let n := nat_of_ascii c in
  if bool_decide (65 ≤ n ≤ 90) || (bool_decide (192 ≤ n ≤ 222) && bool_decide (n ≠ 215))
  then ascii_of_nat (n + 32) else c.

Fixpoint lower (s : string) : string :=
  match s with
  | EmptyString => EmptyString
  | String c s' => String (char_lower c) (lower s')
  end.

(** [s.replace(old, new)]: every occurrence of [old], left to right and
    without overlap.  [skip] counts the characters of a matched occurrence
    that are still to be dropped. *)
Fixpoint replace_from (skip : nat) (old new s : string) : string :=
  match s with
  | EmptyString => EmptyString
  | String c s' =>
      match skip with
      | S k => replace_from k old new s'
      | 0 =>
          if String.prefix old s
          then new +:+ replace_from (String.length old - 1) old new s'
          else String c (replace_from 0 old new s')
      end
  end.

Fixpoint replace_between (new s : string) : string :=
  match s with
  | EmptyString => EmptyString
  | String c s' => String c (new +:+ replace_between new s')
  end.

Definition replace (old new s : string) : string :=
  match old with
  | EmptyString => new +:+ replace_between new s
  | _ => replace_from 0 old new s
  end.

Record ModifiedKey : Type := {
  key : string;
  ctrl : bool;
  alt : bool;
  shift : bool;
  meta : bool
}.

Definition _canon (mk : ModifiedKey) : string :=
  let parts := [] in
  let parts := if ctrl mk then parts ++ ["control"%string] else parts in
  let parts := if alt mk then parts ++ ["alt"%string] else parts in
  let parts := if shift mk then parts ++ ["shift"%string] else parts in
  let parts := if meta mk then parts ++ ["meta"%string] else parts in
  let parts := parts ++ [lower (key mk)] in
  join "+" parts.

(** [@key(binding)]: the [_key_binding] attribute it attaches to the
    method. *)
Definition key_decorator (binding : string) : string := lower binding.

Module AppletDialog.
Section Dispatch.

(** The bound [command_] methods.  A bound method is always truthy, so
    [if func] and [not func] only test for [None]. *)
Context {handler : Type}.

(** What [_dispatch] ends up calling. *)
Inductive call : Type :=
| Command (func : handler) (mk : ModifiedKey)
| unbound_key (mk : ModifiedKey).

Definition _dispatch (_bindings : gmap string handler) (mk : ModifiedKey) : call :=
  let canon := _canon mk in
  let func := _bindings !! canon in
  let func :=
    match func, shift mk with
    | None, true =>
        let canon_noshift := replace "shift+" "" canon in
        _bindings !! canon_noshift
    | _, _ => func
    end in
  match func with
  | Some f => Command f mk
  | None => unbound_key mk
  end.

(** [_discover_bindings] walks [dir(self)], the attribute names in sorted
    order; [attrs] lists them with the attribute itself and its
    [_key_binding] ([None] when it has none).  Only [command_] attributes
    with a non-empty binding are kept, a later one replacing an earlier
    one with the same binding. *)
Definition _discover_bindings
    (attrs : list (string * (handler * option string))) : gmap string handler :=
  foldl (λ _bindings attr,
           let '(attr_name, (func, binding)) := attr in
           if String.prefix "command_" attr_name then
             match binding with
             | Some b => if decide (b = EmptyString) then _bindings
                         else <[b := func]> _bindings
             | None => _bindings
             end
           else _bindings)
        ∅ attrs.

End Dispatch.
Arguments call : clear implicits.
End AppletDialog.

(** ** [class Anchor]: the applet router *)

Module Anchor.
Section Router.

(** An applet class and its instances; [construct klass name] is the
    call [klass(anchor=self, name=name)]. *)
Context {klass applet : Type} (construct : klass → string → applet).

(** Calls made on applet objects. *)
Inductive effect : Type :=
| start (name : string)
| on_deactivate (name : string)
| on_activate (name : string).

(** [effects] is not a field of the class: it lists, oldest first, the
    calls the router has made on its applets. *)
Record t : Type := mk {
  applets : gmap string applet;
  _applet_classes : gmap string klass;
  _active_name : option string;
  effects : list effect
}.

Definition init : t := mk ∅ ∅ None [].

Definition set_applets (f : gmap string applet → gmap string applet) : M t unit :=
  modify (λ a, mk (f (applets a)) (_applet_classes a) (_active_name a) (effects a)).
Definition set_applet_classes (f : gmap string klass → gmap string klass) : M t unit :=
  modify (λ a, mk (applets a) (f (_applet_classes a)) (_active_name a) (effects a)).
Definition set_active_name (n : option string) : M t unit :=
  modify (λ a, mk (applets a) (_applet_classes a) n (effects a)).
Definition emit (e : effect) : M t unit :=
  modify (λ a, mk (applets a) (_applet_classes a) (_active_name a) (effects a ++ [e])).

Definition register_applet (name : string) (k : klass) : M t unit :=
  a <- get ;;
  match _applet_classes a !! name with
  | Some _ => raise (ValueError ("Applet '" +:+ name +:+ "' already registered"))
  | None => set_applet_classes (λ m, <[name := k]> m)
  end.

Definition activate (name : string) : M t unit :=
  a <- get ;;
  match _applet_classes a !! name with
  | None => raise (KeyError name)
  | Some k =>
      (match applets a !! name with
       | None =>
           let applet := construct k name in
           set_applets (λ m, <[name := applet]> m) ;;
           emit (start name)
       | Some _ => ret tt
       end) ;;
      a <- get ;;
      (match _active_name a with
       | Some active =>
           if bool_decide (active ≠ EmptyString) && bool_decide (is_Some (applets a !! active))
           then emit (on_deactivate active)
           else ret tt
       | None => ret tt
       end) ;;
      set_active_name (Some name) ;;
      a <- get ;;
      match applets a !! name with
      | Some _ => emit (on_activate name)
      | None => raise (KeyError name)
      end
  end.

(** One turn of the pump in [run] with a key taken from the raw queue:
    the name of the applet on whose [key_q] the key is put, if any. *)
Definition pump_target (a : t) : option string :=
  match _active_name a with
  | Some active =>
      if bool_decide (active ≠ EmptyString) && bool_decide (is_Some (applets a !! active))
      then Some active
      else None
  | None => None
  end.

End Router.
Arguments t : clear implicits.
End Anchor.

(** ** [class EditorApplet]: saving *)

Module EditorApplet.

Definition DEFAULT_NAME : string := "untitled.txt".

Definition newline : string := String "010" EmptyString.

(** The applet's buffer and its last-used file name; [files] maps a
    path to the text last written to it. *)
Record t : Type := mk {
  buffer : Dialog.t;
  _filename : option string;
  files : gmap string string
}.

(** [EditorApplet.__init__]: a buffer with one empty line and no file
    name yet. *)
Definition init : t := mk (exec (Dialog.add_line EmptyString) Dialog.init) None ∅.

(** What [fp.write] receives. *)
Definition saved_text (d : Dialog.t) : string :=
  join newline (Dialog.lines d).

(** Opening with mode "w" replaces what the file held. *)
Definition command_save (mk_ : ModifiedKey) (e : t) : t :=
  let filename :=
    match shift mk_, _filename e with
    | false, Some f => f
    | _, _ => DEFAULT_NAME
    end in
  mk (buffer e) (Some filename) (<[filename := saved_text (buffer e)]> (files e)).

(** A buffer method called on the applet, which is its own buffer. *)
Definition on_buffer {A} (m : M Dialog.t A) : M t A :=
  λ e, let '(d, r) := m (buffer e) in (mk d (_filename e) (files e), r).

(** The decorated [command_] methods. *)
Inductive command : Type :=
| command_backspace
| command_delete
| command_down
| command_end
| command_enter
| command_home
| command_left
| command_right
| command_save_
| command_up.

(** The [command_] attributes in [dir()] order, each with the binding
    its [@key] decorator attached. *)
Definition attrs : list (string * (command * option string)) :=
  [ ("command_backspace", (command_backspace, Some (key_decorator "backspace")));
    ("command_delete", (command_delete, Some (key_decorator "delete")));
    ("command_down", (command_down, Some (key_decorator "down")));
    ("command_end", (command_end, Some (key_decorator "end")));
    ("command_enter", (command_enter, Some (key_decorator "enter")));
    ("command_home", (command_home, Some (key_decorator "home")));
    ("command_left", (command_left, Some (key_decorator "left")));
    ("command_right", (command_right, Some (key_decorator "right")));
    ("command_save", (command_save_, Some (key_decorator "control+s")));
    ("command_up", (command_up, Some (key_decorator "up"))) ]%string.

Definition _bindings : gmap string command :=
  AppletDialog._discover_bindings attrs.
Arguments _bindings : simpl never.

(** Calling the bound method [c] with the key event. *)
Definition call_command (c : command) (mk_ : ModifiedKey) : M t unit :=
  match c with
  | command_save_ => modify (command_save mk_)
  | command_left => on_buffer (Dialog.move_left (shift mk_))
  | command_right => on_buffer (Dialog.move_right (shift mk_))
  | command_up => on_buffer (Dialog.move_up (shift mk_))
  | command_down => on_buffer (Dialog.move_down (shift mk_))
  | command_home => on_buffer (Dialog.move_home (shift mk_))
  | command_end => on_buffer (Dialog.move_end (shift mk_))
  | command_enter => on_buffer Dialog.split_line
  | command_backspace => on_buffer Dialog.delete_left
  | command_delete => on_buffer Dialog.delete_right
  end.

Section Keys.

(** [str.isprintable] and [str.upper] are Python's own; the editor's
    behaviour is stated for whatever they compute. *)
Context (isprintable : string → bool) (upper : string → string).

Definition unbound_key (mk_ : ModifiedKey) : M t unit :=
  if bool_decide (String.length (key mk_) = 1) && isprintable (key mk_) then
    let ch := if shift mk_ then upper (key mk_) else key mk_ in
    on_buffer (Dialog.insert_char ch)
  else ret tt.

(** [_dispatch] on the applet: the bound command or [unbound_key]. *)
Definition _dispatch (mk_ : ModifiedKey) : M t unit :=
  match AppletDialog._dispatch _bindings mk_ with
  | AppletDialog.Command func mk' => call_command func mk'
  | AppletDialog.unbound_key mk' => unbound_key mk'
  end.

End Keys.

End EditorApplet.

(** Modelled from the spec: the repository only writes a buffer and has
    no code that reads one back; "re-reading" the newline-joined text is
    cutting it at every newline, as [text.split(sep)] does for a
    one-character [sep]. *)
Fixpoint split_on (sep : ascii) (text : string) : list string :=
  match text with
  | EmptyString => [EmptyString]
  | String c rest =>
      if decide (c = sep) then EmptyString :: split_on sep rest
      else match split_on sep rest with
           | first :: others => String c first :: others
           | [] => [String c EmptyString]
           end
  end.

(** ** Vocabulary of the properties *)

(** Whatever the outcome of the call, the object after it is [R]-related
    to the object before it. *)
Definition respects {S A} (R : relation S) (m : M S A) : Prop :=
  ∀ s, R s (exec m s).

(** The objects seen after each call of a sequence, a call that raised
    included (it leaves the object as far as it got). *)
Fixpoint states_after {S} (calls : list (M S unit)) (s : S) : list S :=
  match calls with
  | [] => []
  | m :: rest => exec m s :: states_after rest (exec m s)
  end.

(** The calls of a sequence one after the other; the first that raises
    ends it. *)
Fixpoint run_all {S} (calls : list (M S unit)) : M S unit :=
  match calls with
  | [] => ret tt
  | m :: rest => m ;; run_all rest
  end.

Definition same_selection (d d' : Dialog.t) : Prop :=
  Dialog.selection d' = Dialog.selection d.

Definition stays_inactive (d d' : Dialog.t) : Prop :=
  Selection.is_active (Dialog.selection d) = false →
  Selection.is_active (Dialog.selection d') = false.

Definition keeps_a_line (d d' : Dialog.t) : Prop :=
  Dialog._unnamed d ≠ [] → Dialog._unnamed d' ≠ [].

(** [cursor_line] in [0, len - 1] and [cursor_offset] in
    [0, len(current line)]. *)
Definition cursor_in_range (d : Dialog.t) : Prop :=
  match Dialog.cursor_line d, Dialog.cursor_offset d with
  | Some cl, Some off =>
      match Dialog._unnamed d !! cl with
      | Some v => off ≤ String.length (or_empty v)
      | None => False
      end
  | _, _ => False
  end.

Inductive sideways : Type := to_left | to_right.

Definition move_sideways (m : sideways) (is_shifted : bool) : M Dialog.t unit :=
  match m with
  | to_left => Dialog.move_left is_shifted
  | to_right => Dialog.move_right is_shifted
  end.

Inductive movement : Type := left | right | up | down | home | end_.

Definition move (m : movement) (is_shifted : bool) : M Dialog.t unit :=
  match m with
  | left => Dialog.move_left is_shifted
  | right => Dialog.move_right is_shifted
  | up => Dialog.move_up is_shifted
  | down => Dialog.move_down is_shifted
  | home => Dialog.move_home is_shifted
  | end_ => Dialog.move_end is_shifted
  end.

(** The operations of the buffer. *)
Inductive operation : Type :=
| op_move (m : movement) (is_shifted : bool)
| op_insert_char (ch : string)
| op_delete_left
| op_delete_right
| op_split_line
| op_delete_selection.

Definition run (o : operation) : M Dialog.t unit :=
  match o with
  | op_move m is_shifted => move m is_shifted
  | op_insert_char ch => Dialog.insert_char ch
  | op_delete_left => Dialog.delete_left
  | op_delete_right => Dialog.delete_right
  | op_split_line => Dialog.split_line
  | op_delete_selection => Dialog._delete_selection
  end.

(** The cursor as a position. *)
Definition cursor (d : Dialog.t) : option nat * option nat :=
  (Dialog.cursor_line d, Dialog.cursor_offset d).

Definition with_cursor (d : Dialog.t) (p : nat * nat) : Dialog.t :=
  Dialog.mk (Dialog._unnamed d) (Some p.1) (Some p.2) (Dialog.selection d).

(** The two ends of a selection as positions. *)
Definition anchor (s : Selection.t) : option nat * option nat :=
  (Selection.start_line s, Selection.start_offset s).

Definition extent (s : Selection.t) : option nat * option nat :=
  (Selection.end_line s, Selection.end_offset s).

(** Positions in reading order: by line, then by offset. *)
Definition lex_le (p q : nat * nat) : bool :=
  bool_decide (p.1 < q.1 ∨ (p.1 = q.1 ∧ p.2 ≤ q.2)).

(** A position as the selection fields hold it. *)
Definition as_fields (p : nat * nat) : option nat * option nat :=
  (Some p.1, Some p.2).

(** The length of line [i], 0 when there is no such line. *)
Definition line_length (d : Dialog.t) (i : nat) : nat :=
  String.length (or_empty (default None (Dialog._unnamed d !! i))).

(** Where a movement takes a cursor at [(cl, off)]; [None] when the
    method returns before it reaches the selection rule ([move_up] on the
    first line, [move_down] on the last). *)
Definition move_target (m : movement) (d : Dialog.t) (cl off : nat)
  : option (nat * nat) :=
  match m with
  | left =>
      Some (if decide (0 < off) then (cl, off - 1)
            else if decide (0 < cl) then (cl - 1, line_length d (cl - 1))
            else (cl, off))
  | right =>
      Some (if decide (off < line_length d cl) then (cl, off + 1)
            else if decide (cl + 1 < length (Dialog._unnamed d)) then (cl + 1, 0)
            else (cl, off))
  | up =>
      if decide (cl = 0) then None
      else Some (cl - 1, off `min` line_length d (cl - 1))
  | down =>
      if decide (length (Dialog._unnamed d) ≤ cl + 1) then None
      else Some (cl + 1, off `min` line_length d (cl + 1))
  | home => Some (cl, 0)
  | end_ => Some (cl, line_length d cl)
  end.

(** A position on a line of the buffer and within its text. *)
Definition position_in_range (d : Dialog.t) (p : nat * nat) : Prop :=
  p.1 < length (Dialog._unnamed d) ∧ p.2 ≤ line_length d p.1.

(** What a run of shifted movements begun on [d] keeps true of the
    buffer [d'] it has reached: nothing has touched the selection and the
    cursor is where it was, or the selection stretches from where the
    cursor was to where it is. *)
Definition selecting_from (d d' : Dialog.t) : Prop :=
  cursor_in_range d'
  ∧ ((Dialog.selection d' = Dialog.selection d ∧ cursor d' = cursor d)
     ∨ (anchor (Dialog.selection d') = cursor d
        ∧ extent (Dialog.selection d') = cursor d')).

(** The selection [_update_selection] leaves. *)
Definition updated_selection (is_shifted : bool)
    (prev : option nat * option nat) (d : Dialog.t) : Selection.t :=
  if is_shifted then
    Selection.update_end (Dialog.cursor_line d) (Dialog.cursor_offset d)
      (if Selection.is_active (Dialog.selection d) then Dialog.selection d
       else Selection.set_anchor prev.1 prev.2 (Dialog.selection d))
  else Selection.reset (Dialog.selection d).

(** All the text of a sequence of lines, end to end. *)
Definition concat_text (ls : list string) : string :=
  foldr String.append EmptyString ls.

(** [c in text]. *)
Fixpoint has_char (c : ascii) (text : string) : bool :=
  match text with
  | EmptyString => false
  | String a rest => bool_decide (a = c) || has_char c rest
  end.

(** The buffer ["abc", "def"] after shift-selecting back from (1, 1) to
    (0, 3): anchor (1, 1), extent and cursor (0, 3). *)
Definition abc_def_selected : Dialog.t :=
  Dialog.mk [Some "abc"; Some "def"]%string (Some 0) (Some 3)
            (Selection.mk (Some 1) (Some 1) (Some 0) (Some 3)).

(** The buffer ["ab", "c"] with the cursor at (0, 1). *)
Definition ab_c : Dialog.t :=
  Dialog.mk [Some "ab"; Some "c"]%string (Some 0) (Some 1) Selection.init.

(** The buffer ["abcd"] with the cursor at (0, 2). *)
Definition abcd_at_2 : Dialog.t :=
  Dialog.mk [Some "abcd"]%string (Some 0) (Some 2) Selection.init.

(** The buffer ["ab", "cd"] with the cursor at (1, 0). *)
Definition ab_cd_at_line_start : Dialog.t :=
  Dialog.mk [Some "ab"; Some "cd"]%string (Some 1) (Some 0) Selection.init.

(** A buffer without lines whose selection fields are set all the same. *)
Definition no_lines_selected : Dialog.t :=
  Dialog.mk [] None (Some 0) (Selection.mk (Some 0) (Some 0) (Some 0) (Some 1)).

(** The same key event with shift released. *)
Definition unshifted (mk : ModifiedKey) : ModifiedKey :=
  {| key := key mk; ctrl := ctrl mk; alt := alt mk; shift := false; meta := meta mk |}.

(** The key event for a named or printable key with at most shift held. *)
Definition plain_key (name : string) (with_shift : bool) : ModifiedKey :=
  {| key := name; ctrl := false; alt := false; shift := with_shift; meta := false |}.

(** The key names the editor binds to the six movements. *)
Definition movement_key (m : movement) : string :=
  match m with
  | left => "left"
  | right => "right"
  | up => "up"
  | down => "down"
  | home => "home"
  | end_ => "end"
  end.

(** The key event for "a" with shift held. *)
Definition shift_a : ModifiedKey :=
  {| key := "a"; ctrl := false; alt := false; shift := true; meta := false |}.

(** A router with the single class "editor" registered and activated; an
    instance is represented by the name it was built with. *)
Definition editor_only : Anchor.t unit string :=
  exec (Anchor.register_applet "editor" tt ;;
        Anchor.activate (λ _ name, name) "editor") Anchor.init.

(** * Properties *)

(** ** Relations that every step of a call respects *)

Section Steps.
Context {S : Type} (R : relation S) `{!PreOrder R}.

Lemma respects_ret {A} (a : A) : respects R (ret a).
Proof. intros s. reflexivity. Qed.

Lemma respects_raise {A} (e : exn) : respects R (raise (A:=A) e).
Proof. intros s. reflexivity. Qed.

Lemma respects_get : respects R get.
Proof. intros s. reflexivity. Qed.

Lemma respects_lift {A} (r : result A) : respects R (lift r).
Proof. intros s. reflexivity. Qed.

Lemma respects_bind {A B} (m : M S A) (k : A → M S B) :
  respects R m → (∀ a, respects R (k a)) → respects R (bind m k).
Proof.
  intros Hm Hk s. unfold exec, bind. specialize (Hm s). unfold exec in Hm.
  destruct (m s) as [s' [a|e]]; simpl in *; [|done].
  etrans; [exact Hm|]. apply Hk.
Qed.

(** Each object in the trace of a sequence of respectful calls is
    related to the first one. *)
Lemma respects_states_after (calls : list (M S unit)) (s : S) :
  Forall (respects R) calls → Forall (R s) (states_after calls s).
Proof.
  intros Hcalls. revert s.
  induction Hcalls as [|m rest Hm _ IH]; intros s; simpl; constructor.
  - apply Hm.
  - eapply Forall_impl; [apply IH|].
    intros s' Hs'. etrans; [apply Hm|exact Hs'].
Qed.

End Steps.

(** After [as_int o] the continuation runs on the number [o] holds. *)
Lemma respects_as_int_bind (R : relation Dialog.t) `{!PreOrder R} {B}
    (o : option nat) (k : nat → M Dialog.t B) :
  (∀ n, o = Some n → respects R (k n)) →
  respects R (bind (Dialog.as_int o) k).
Proof.
  intros Hk s. destruct o as [n|]; [|reflexivity].
  by apply (Hk n).
Qed.

Create HintDb respects discriminated.
#[global] Hint Resolve respects_ret respects_raise respects_get respects_lift : respects.
#[global] Hint Extern 0 (PreOrder _) => exact _ : respects.

(** Splits a computation at its binds and branches, leaving the primitive
    steps to the [respects] hints. *)
Ltac respects_steps :=
  repeat first
    [ progress intros
    | solve [eauto with respects]
    | apply respects_as_int_bind
    | apply respects_bind
    | case_decide
    | case_match ].

(** ** The selection is a frame of the line primitives *)

#[global] Instance same_selection_preorder : PreOrder same_selection.
Proof. split; [done|]. intros x y z Hxy Hyz. unfold same_selection in *. congruence. Qed.

Lemma set_unnamed_same_selection f : respects same_selection (Dialog.set_unnamed f).
Proof. done. Qed.

Lemma set_cursor_line_same_selection l : respects same_selection (Dialog.set_cursor_line l).
Proof. done. Qed.

Lemma set_cursor_offset_same_selection o : respects same_selection (Dialog.set_cursor_offset o).
Proof. done. Qed.

Lemma value_at_same_selection i : respects same_selection (Dialog.value_at i).
Proof. unfold Dialog.value_at. respects_steps. Qed.

Lemma as_int_same_selection o : respects same_selection (Dialog.as_int o).
Proof. unfold Dialog.as_int. respects_steps. Qed.

#[global] Hint Resolve set_unnamed_same_selection set_cursor_line_same_selection
  set_cursor_offset_same_selection value_at_same_selection as_int_same_selection : respects.

Lemma set_value_same_selection i v : respects same_selection (Dialog.set_value i v).
Proof. unfold Dialog.set_value. respects_steps. Qed.

Lemma add_line_same_selection v : respects same_selection (Dialog.add_line v).
Proof. unfold Dialog.add_line. respects_steps. Qed.

#[global] Hint Resolve set_value_same_selection add_line_same_selection : respects.

Lemma split_line_same_selection : respects same_selection Dialog.split_line.
Proof. unfold Dialog.split_line. respects_steps. Qed.

(** C10: on a buffer without lines ([cursor_line] is [None]) each of the
    six cursor movements returns at once, with or without [is_shifted]:
    lines, cursor and selection are what they were, and a plain move does
    not reset the selection. *)
Theorem move_without_lines_is_noop (d : Dialog.t) (m : movement) (is_shifted : bool) :
  Dialog.cursor_line d = None →
  move m is_shifted d = (d, Ok tt).
Proof.
  intros Hnone. destruct m; simpl;
    unfold Dialog.move_left, Dialog.move_right, Dialog.move_up,
      Dialog.move_down, Dialog.move_home, Dialog.move_end, bind, get;
    by rewrite Hnone.
Qed.

Lemma move_without_lines_is_noop_witness :
  Dialog.cursor_line no_lines_selected = None
  ∧ Selection.is_active (Dialog.selection no_lines_selected) = true
  ∧ move left false no_lines_selected = (no_lines_selected, Ok tt).
Proof.
  split; [reflexivity|]. split; [reflexivity|].
  apply (move_without_lines_is_noop no_lines_selected left false). reflexivity.
Defined.

(** ** Plain moves never activate the selection *)

#[global] Instance stays_inactive_preorder : PreOrder stays_inactive.
Proof.
  split.
  - intros x Hx. exact Hx.
  - intros x y z Hxy Hyz Hx. apply Hyz, Hxy, Hx.
Qed.

Lemma same_selection_stays_inactive {A} (m : M Dialog.t A) :
  respects same_selection m → respects stays_inactive m.
Proof. intros H s Hs. specialize (H s). unfold same_selection in H. by rewrite H. Qed.

Lemma update_selection_plain_stays_inactive prev_line prev_offset :
  respects stays_inactive (Dialog._update_selection false prev_line prev_offset).
Proof. intros s _. reflexivity. Qed.

#[global] Hint Resolve same_selection_stays_inactive
  update_selection_plain_stays_inactive : respects.

Lemma move_sideways_plain_stays_inactive (m : sideways) :
  respects stays_inactive (move_sideways m false).
Proof.
  destruct m; unfold move_sideways, Dialog.move_left, Dialog.move_right;
    respects_steps.
Qed.

(** C3: starting from an inactive selection, after each call of any
    sequence of [move_left()] and [move_right()] without [is_shifted] the
    selection is inactive. *)
Theorem plain_sideways_moves_keep_selection_inactive
    (d : Dialog.t) (moves : list sideways) :
  Selection.is_active (Dialog.selection d) = false →
  Forall (λ d', Selection.is_active (Dialog.selection d') = false)
         (states_after ((λ m, move_sideways m false) <$> moves) d).
Proof.
  intros Hd.
  eapply Forall_impl.
  - apply (respects_states_after stays_inactive).
    apply Forall_fmap, Forall_true. intros m.
    apply move_sideways_plain_stays_inactive.
  - intros d' Hd'. by apply Hd'.
Qed.

Lemma plain_sideways_moves_keep_selection_inactive_witness :
  Selection.is_active (Dialog.selection ab_c) = false
  ∧ Forall (λ d', Selection.is_active (Dialog.selection d') = false)
           (states_after
              ((λ m, move_sideways m false)
               <$> [to_left; to_left; to_right; to_right; to_right; to_right])
              ab_c).
Proof.
  split; [reflexivity|].
  apply (plain_sideways_moves_keep_selection_inactive ab_c
           [to_left; to_left; to_right; to_right; to_right; to_right]).
  reflexivity.
Defined.

(** ** Extending left and back *)

Lemma is_active_true (s : Selection.t) :
  Selection.is_active s = true ↔
  Selection.start_line s ≠ None
  ∧ (Selection.start_line s ≠ Selection.end_line s
     ∨ Selection.start_offset s ≠ Selection.end_offset s).
Proof.
  unfold Selection.is_active.
  rewrite andb_true_iff, orb_true_iff, !bool_decide_eq_true. done.
Qed.

Lemma is_active_false (s : Selection.t) :
  Selection.is_active s = false ↔
  Selection.start_line s = None
  ∨ (Selection.start_line s = Selection.end_line s
     ∧ Selection.start_offset s = Selection.end_offset s).
Proof.
  unfold Selection.is_active.
  rewrite andb_false_iff, orb_false_iff, !bool_decide_eq_false.
  split.
  - intros [H|[H1 H2]]; [left|right; split]; by apply dec_stable.
  - intros [H|[H1 H2]]; [left|right; split]; auto.
Qed.

(** [move_left] inside a line: one step back, then the selection rule. *)
Lemma move_left_within_line (d : Dialog.t) (cl k : nat) (is_shifted : bool) :
  Dialog.cursor_line d = Some cl →
  Dialog.cursor_offset d = Some k →
  0 < k →
  Dialog.move_left is_shifted d
  = Dialog._update_selection is_shifted (Some cl) (Some k)
      (Dialog.mk (Dialog._unnamed d) (Some cl) (Some (k - 1))
                 (Dialog.selection d)).
Proof.
  intros Hcl Hoff Hk. unfold Dialog.move_left, bind, get. rewrite Hcl, Hoff.
  simpl. destruct (decide (0 < k)); [|lia].
  simpl. by rewrite Hcl.
Qed.

(** [move_right] inside a line: one step forward, then the selection rule. *)
Lemma move_right_within_line (d : Dialog.t) (cl k : nat) (v : option string)
    (is_shifted : bool) :
  Dialog.cursor_line d = Some cl →
  Dialog._unnamed d !! cl = Some v →
  Dialog.cursor_offset d = Some k →
  k < String.length (or_empty v) →
  Dialog.move_right is_shifted d
  = Dialog._update_selection is_shifted (Some cl) (Some k)
      (Dialog.mk (Dialog._unnamed d) (Some cl) (Some (k + 1))
                 (Dialog.selection d)).
Proof.
  intros Hcl Hv Hoff Hk. unfold Dialog.move_right, Dialog.value_at, bind, get.
  rewrite Hcl, Hv, Hoff. simpl.
  destruct (decide (k < String.length (or_empty v))); [|lia].
  simpl. by rewrite Hcl.
Qed.

(** C4: with the cursor at offset [k], [0 < k <= len(line)], and an
    inactive selection, [move_left(True)] followed by [move_right(True)]
    puts the cursor back where it was and leaves the selection inactive,
    its extent on its anchor again. *)
Theorem extend_left_then_right_is_symmetric
    (d : Dialog.t) (cl k : nat) (v : option string) :
  Dialog.cursor_line d = Some cl →
  Dialog._unnamed d !! cl = Some v →
  Dialog.cursor_offset d = Some k →
  0 < k ≤ String.length (or_empty v) →
  Selection.is_active (Dialog.selection d) = false →
  let d' := exec (Dialog.move_right true) (exec (Dialog.move_left true) d) in
  Dialog.cursor_line d' = Some cl
  ∧ Dialog.cursor_offset d' = Some k
  ∧ Selection.is_active (Dialog.selection d') = false
  ∧ Selection.start_line (Dialog.selection d') = Some cl
  ∧ Selection.start_offset (Dialog.selection d') = Some k
  ∧ Selection.end_line (Dialog.selection d') = Some cl
  ∧ Selection.end_offset (Dialog.selection d') = Some k
  ∧ Dialog._unnamed d' = Dialog._unnamed d.
Proof.
  intros Hcl Hv Hoff [Hk0 Hk] Hsel d'.
  assert (Hd' : d' = Dialog.mk (Dialog._unnamed d) (Some cl) (Some k)
                       (Selection.mk (Some cl) (Some k) (Some cl) (Some k))).
  { subst d'. unfold exec.
    rewrite (move_left_within_line d cl k true Hcl Hoff) by lia.
    unfold Dialog._update_selection at 1. unfold bind, get. simpl.
    rewrite Hsel. simpl.
    erewrite (move_right_within_line _ cl (k - 1) v true);
      simpl; [|done|done|done|lia].
    unfold Dialog._update_selection, bind, get. simpl.
    assert (Hact : Selection.is_active
              (Selection.update_end (Some cl) (Some (k - 1))
                 (Selection.set_anchor (Some cl) (Some k)
                    (Dialog.selection d))) = true).
    { apply is_active_true. simpl. split; [done|]. right. intros [= ?]. lia. }
    rewrite Hact. simpl.
    by replace (k - 1 + 1) with k by lia. }
  rewrite Hd'. simpl. repeat split; try done.
  apply is_active_false. simpl. by right.
Qed.

Lemma extend_left_then_right_is_symmetric_witness :
  let d' := exec (Dialog.move_right true) (exec (Dialog.move_left true) abcd_at_2) in
  Dialog.cursor_line d' = Some 0
  ∧ Dialog.cursor_offset d' = Some 2
  ∧ Selection.is_active (Dialog.selection d') = false
  ∧ Selection.start_line (Dialog.selection d') = Some 0
  ∧ Selection.start_offset (Dialog.selection d') = Some 2
  ∧ Selection.end_line (Dialog.selection d') = Some 0
  ∧ Selection.end_offset (Dialog.selection d') = Some 2
  ∧ Dialog._unnamed d' = Dialog._unnamed abcd_at_2.
Proof.
  apply (extend_left_then_right_is_symmetric abcd_at_2 0 2 (Some "abcd"%string));
    [reflexivity|reflexivity|reflexivity|simpl; lia|reflexivity].
Defined.

(** ** Merging lines *)

(** Overwriting entry [i] and then cutting the list after it up to [j]. *)
Lemma insert_then_cut {A} (l : list A) (i j : nat) (x : A) :
  i < length l → i < j →
  take (S i) (<[i:=x]> l) ++ drop j (<[i:=x]> l) = take i l ++ x :: drop j l.
Proof.
  intros Hi Hij.
  rewrite (take_S_r _ i x) by (by apply list_lookup_insert_eq).
  rewrite take_insert_ge by lia. rewrite drop_insert_lt by lia.
  by rewrite <- app_assoc.
Qed.

Lemma insert_after_take {A} (l k : list A) (i : nat) (x y : A) :
  i < length l →
  <[i:=y]> (take i l ++ x :: k) = take i l ++ y :: k.
Proof.
  intros Hi.
  rewrite (insert_app_r_alt _ _ i) by (rewrite length_take; lia).
  by rewrite length_take_le, Nat.sub_diag by lia.
Qed.

Lemma lookup_after_take {A} (l k : list A) (i : nat) (x : A) :
  i < length l → (take i l ++ x :: k) !! i = Some x.
Proof.
  intros Hi. rewrite lookup_app_r by (rewrite length_take; lia).
  by rewrite length_take_le, Nat.sub_diag by lia.
Qed.

(** The rule of [delete_left] at the start of a line that is not the
    first: the line's text goes onto the end of the previous line, the
    line is removed, and the cursor sits on the previous line at that
    line's length before the merge. *)
Lemma delete_left_merges_into_previous
    (d : Dialog.t) (cl : nat) (pv v : option string) :
  Selection.is_active (Dialog.selection d) = false →
  Dialog.cursor_line d = Some cl →
  0 < cl →
  Dialog.cursor_offset d = Some 0 →
  Dialog._unnamed d !! (cl - 1) = Some pv →
  Dialog._unnamed d !! cl = Some v →
  Dialog.delete_left d
  = (Dialog.mk (take (cl - 1) (Dialog._unnamed d)
                ++ Some (or_empty pv +:+ or_empty v)
                   :: drop (cl + 1) (Dialog._unnamed d))
               (Some (cl - 1)) (Some (String.length (or_empty pv)))
               (Dialog.selection d),
     Ok tt).
Proof.
  intros Hsel Hcl Hpos Hoff Hpv Hv.
  assert (Hlen : cl < length (Dialog._unnamed d)) by (by eapply lookup_lt_Some).
  unfold Dialog.delete_left, Dialog.value_at, Dialog.del_line,
    Dialog.set_value, bind, get.
  rewrite Hsel, Hcl, Hoff.
  destruct (decide (cl = 0 ∧ Some 0 = Some 0)) as [[? _]|_]; [lia|].
  rewrite Hv. simpl. rewrite Hpv. simpl.
  rewrite length_insert.
  destruct (decide (cl < length (Dialog._unnamed d))); [|lia]. simpl.
  rewrite delete_take_drop.
  replace (take cl) with (take (A:=option string) (S (cl - 1)))
    by (f_equal; lia).
  rewrite insert_then_cut by lia.
  by replace (cl + 1) with (S cl) by lia.
Qed.

(** A buffer whose [lines()] are two non-empty texts holds exactly those
    two values. *)
Lemma lines_two (d : Dialog.t) (a b : string) :
  a ≠ EmptyString → b ≠ EmptyString →
  Dialog.lines d = [a; b] →
  Dialog._unnamed d = [Some a; Some b].
Proof.
  intros Ha Hb. unfold Dialog.lines.
  destruct (Dialog._unnamed d) as [|[x|] [|[y|] [|? ?]]]; simpl; intros [= ? ?];
    by subst.
Qed.

(** C5: on the lines ["ab", "cd"] with the cursor at (1, 0) and no
    active selection, [delete_left()] leaves the single line "abcd" and
    the cursor at (0, 2): the second line is merged onto the first and
    removed, and the cursor offset is the first line's length before the
    merge. *)
Theorem delete_left_at_line_start_merges (d : Dialog.t) :
  Dialog.lines d = ["ab"; "cd"]%string →
  Dialog.cursor_line d = Some 1 →
  Dialog.cursor_offset d = Some 0 →
  Selection.is_active (Dialog.selection d) = false →
  outcome Dialog.delete_left d = Ok tt
  ∧ Dialog.lines (exec Dialog.delete_left d) = ["abcd"%string]
  ∧ Dialog.cursor_line (exec Dialog.delete_left d) = Some 0
  ∧ Dialog.cursor_offset (exec Dialog.delete_left d) = Some 2.
Proof.
  intros Hlines Hcl Hoff Hsel.
  apply lines_two in Hlines; [|done..].
  unfold outcome, exec.
  rewrite (delete_left_merges_into_previous d 1 (Some "ab"%string) (Some "cd"%string));
    try done; [|lia|by rewrite Hlines..].
  rewrite Hlines. done.
Qed.

Lemma delete_left_at_line_start_merges_witness :
  outcome Dialog.delete_left ab_cd_at_line_start = Ok tt
  ∧ Dialog.lines (exec Dialog.delete_left ab_cd_at_line_start) = ["abcd"%string]
  ∧ Dialog.cursor_line (exec Dialog.delete_left ab_cd_at_line_start) = Some 0
  ∧ Dialog.cursor_offset (exec Dialog.delete_left ab_cd_at_line_start) = Some 2.
Proof.
  apply (delete_left_at_line_start_merges ab_cd_at_line_start); reflexivity.
Defined.

(** ** Deleting a selection that spans lines *)

(** The rule of [_delete_selection] for endpoints on different lines: the
    first line keeps its text before [s_off] and receives the last line's
    text from [e_off]; the lines after it up to the last one go; the
    cursor is put on the first endpoint and the selection is reset. *)
Lemma delete_selection_across_lines
    (d : Dialog.t) (sl so el eo : nat) (fv lv : option string) :
  Selection.ordered (Dialog.selection d)
  = Ok ((Some sl, Some so), (Some el, Some eo)) →
  sl < el →
  Dialog._unnamed d !! sl = Some fv →
  Dialog._unnamed d !! el = Some lv →
  Dialog._delete_selection d
  = (Dialog.mk (take sl (Dialog._unnamed d)
                ++ Some (str_take so (or_empty fv) +:+ str_drop eo (or_empty lv))
                   :: drop (el + 1) (Dialog._unnamed d))
               (Some sl) (Some so) Selection.init,
     Ok tt).
Proof.
  intros Hord Hlt Hfv Hlv.
  assert (Hlen : sl < length (Dialog._unnamed d)) by (by eapply lookup_lt_Some).
  unfold Dialog._delete_selection, bind, get, lift. rewrite Hord.
  destruct (decide (Some sl = Some el)) as [[= ?]|_]; [lia|].
  unfold Dialog.value_at, Dialog.set_value, Dialog.as_int, bind, get.
  rewrite Hfv. simpl.
  rewrite list_lookup_insert_ne by lia. rewrite Hlv. simpl.
  unfold del_slice. destruct (decide (sl + 1 ≤ el + 1)); [|lia].
  replace (take (sl + 1)) with (take (A:=option string) (S sl))
    by (f_equal; lia).
  rewrite insert_then_cut by lia.
  rewrite lookup_after_take by lia. simpl.
  by rewrite insert_after_take by lia.
Qed.

(** C1, as the code has it: on the lines ["abc", "def"] with the cursor at
    (0, 3) and a selection whose ordered endpoints are (0, 3) and (1, 1),
    [_delete_selection()] leaves the single line "abcef" (all of "abc",
    which is the first line up to offset 3, then "ef"), the cursor at
    (0, 3) and the selection reset. *)
Theorem delete_selection_abc_def (d : Dialog.t) :
  Dialog.lines d = ["abc"; "def"]%string →
  Dialog.cursor_line d = Some 0 →
  Dialog.cursor_offset d = Some 3 →
  Selection.ordered (Dialog.selection d)
  = Ok ((Some 0, Some 3), (Some 1, Some 1)) →
  outcome Dialog._delete_selection d = Ok tt
  ∧ Dialog.lines (exec Dialog._delete_selection d) = ["abcef"%string]
  ∧ Dialog.cursor_line (exec Dialog._delete_selection d) = Some 0
  ∧ Dialog.cursor_offset (exec Dialog._delete_selection d) = Some 3
  ∧ Dialog.selection (exec Dialog._delete_selection d) = Selection.init
  ∧ Selection.is_active (Dialog.selection (exec Dialog._delete_selection d))
    = false.
Proof.
  intros Hlines Hcl Hoff Hord.
  apply lines_two in Hlines; [|done..].
  unfold outcome, exec.
  rewrite (delete_selection_across_lines d 0 3 1 1
             (Some "abc"%string) (Some "def"%string));
    [|done|lia|by rewrite Hlines..].
  rewrite Hlines. done.
Qed.

Lemma delete_selection_abc_def_witness :
  outcome Dialog._delete_selection abc_def_selected = Ok tt
  ∧ Dialog.lines (exec Dialog._delete_selection abc_def_selected)
    = ["abcef"%string]
  ∧ Dialog.cursor_line (exec Dialog._delete_selection abc_def_selected) = Some 0
  ∧ Dialog.cursor_offset (exec Dialog._delete_selection abc_def_selected) = Some 3
  ∧ Dialog.selection (exec Dialog._delete_selection abc_def_selected)
    = Selection.init
  ∧ Selection.is_active
      (Dialog.selection (exec Dialog._delete_selection abc_def_selected))
    = false.
Proof.
  apply (delete_selection_abc_def abc_def_selected); reflexivity.
Defined.

(** C1, as the specification words it, fails: the buffer and selection
    are the ones it describes, and the line left is not "aef". *)
Lemma delete_selection_abc_def_is_not_aef :
  Dialog.lines abc_def_selected = ["abc"; "def"]%string
  ∧ Dialog.cursor_line abc_def_selected = Some 0
  ∧ Dialog.cursor_offset abc_def_selected = Some 3
  ∧ Selection.ordered (Dialog.selection abc_def_selected)
    = Ok ((Some 0, Some 3), (Some 1, Some 1))
  ∧ Dialog.lines (exec Dialog._delete_selection abc_def_selected)
    ≠ ["aef"%string].
Proof. repeat split; try reflexivity. intros [=]. Qed.

(** ** A buffer with a line keeps one *)

#[global] Instance keeps_a_line_preorder : PreOrder keeps_a_line.
Proof.
  split.
  - intros x Hx. exact Hx.
  - intros x y z Hxy Hyz Hx. apply Hyz, Hxy, Hx.
Qed.

Lemma set_cursor_line_keeps_a_line l : respects keeps_a_line (Dialog.set_cursor_line l).
Proof. by intros s Hs. Qed.

Lemma set_cursor_offset_keeps_a_line o : respects keeps_a_line (Dialog.set_cursor_offset o).
Proof. by intros s Hs. Qed.

Lemma set_selection_keeps_a_line f : respects keeps_a_line (Dialog.set_selection f).
Proof. by intros s Hs. Qed.

Lemma value_at_keeps_a_line i : respects keeps_a_line (Dialog.value_at i).
Proof. unfold Dialog.value_at. respects_steps. Qed.

Lemma as_int_keeps_a_line o : respects keeps_a_line (Dialog.as_int o).
Proof. unfold Dialog.as_int. respects_steps. Qed.

Lemma set_value_keeps_a_line i v : respects keeps_a_line (Dialog.set_value i v).
Proof.
  intros s Hs. simpl. intros Hnil. apply Hs.
  apply (f_equal length) in Hnil. rewrite length_insert in Hnil.
  by apply nil_length_inv.
Qed.

Lemma append_keeps_a_line v :
  respects keeps_a_line (Dialog.set_unnamed (λ l, l ++ [v])).
Proof. intros s _. simpl. by intros [? ?]%app_eq_nil. Qed.

Lemma list_insert_at_keeps_a_line i v :
  respects keeps_a_line (Dialog.set_unnamed (list_insert_at i v)).
Proof. intros s _. simpl. unfold list_insert_at. by intros [? ?]%app_eq_nil. Qed.

(** Removing a line other than the first leaves the first. *)
Lemma del_line_keeps_a_line i : 0 < i → respects keeps_a_line (Dialog.del_line i).
Proof.
  intros Hi s Hs. unfold Dialog.del_line, exec, bind, get.
  case_decide; simpl; [|done].
  destruct (Dialog._unnamed s) as [|x l]; [done|].
  destruct i; [lia|]. done.
Qed.

(** [del l[a + 1 : b + 1]] starts after the first line. *)
Lemma del_slice_keeps_a_line a b :
  respects keeps_a_line (Dialog.set_unnamed (del_slice (a + 1) (b + 1))).
Proof.
  intros s Hs. simpl. unfold del_slice. case_decide; [|done].
  destruct (Dialog._unnamed s) as [|x l]; [done|].
  by rewrite Nat.add_1_r.
Qed.

#[global] Hint Resolve set_cursor_line_keeps_a_line set_cursor_offset_keeps_a_line
  set_selection_keeps_a_line value_at_keeps_a_line as_int_keeps_a_line
  set_value_keeps_a_line append_keeps_a_line list_insert_at_keeps_a_line
  del_slice_keeps_a_line : respects.
(** The line [delete_left] removes is not the first: the cursor is at
    offset 0 and not at (0, 0). *)
Ltac line_index_positive :=
  first
    [ lia
    | match goal with
      | Hnot : ¬ (?cl = 0 ∧ ?o = Some 0), Ho : ?o = Some ?n |- 0 < ?cl =>
          destruct (decide (cl = 0));
          [exfalso; apply Hnot; split; [done|rewrite Ho; f_equal; lia]|lia]
      end ].

#[global] Hint Extern 1 (respects keeps_a_line (Dialog.del_line _)) =>
  apply del_line_keeps_a_line; line_index_positive : respects.

Lemma add_line_keeps_a_line v : respects keeps_a_line (Dialog.add_line v).
Proof. unfold Dialog.add_line. respects_steps. Qed.

Lemma update_selection_keeps_a_line is_shifted prev_line prev_offset :
  respects keeps_a_line (Dialog._update_selection is_shifted prev_line prev_offset).
Proof. unfold Dialog._update_selection. respects_steps. Qed.

Lemma delete_selection_keeps_a_line : respects keeps_a_line Dialog._delete_selection.
Proof. unfold Dialog._delete_selection. respects_steps. Qed.

#[global] Hint Resolve add_line_keeps_a_line update_selection_keeps_a_line
  delete_selection_keeps_a_line : respects.

Lemma move_keeps_a_line m is_shifted : respects keeps_a_line (move m is_shifted).
Proof.
  destruct m; unfold move, Dialog.move_left, Dialog.move_right, Dialog.move_up,
    Dialog.move_down, Dialog.move_home, Dialog.move_end; respects_steps.
Qed.

Lemma insert_char_keeps_a_line ch : respects keeps_a_line (Dialog.insert_char ch).
Proof. unfold Dialog.insert_char. respects_steps. Qed.

Lemma delete_left_keeps_a_line : respects keeps_a_line Dialog.delete_left.
Proof. unfold Dialog.delete_left. respects_steps. Qed.

Lemma delete_right_keeps_a_line : respects keeps_a_line Dialog.delete_right.
Proof. unfold Dialog.delete_right. respects_steps. Qed.

Lemma split_line_keeps_a_line : respects keeps_a_line Dialog.split_line.
Proof. unfold Dialog.split_line. respects_steps. Qed.

Lemma run_keeps_a_line (o : operation) : respects keeps_a_line (run o).
Proof.
  destruct o; simpl;
    auto using move_keeps_a_line, insert_char_keeps_a_line,
      delete_left_keeps_a_line, delete_right_keeps_a_line,
      split_line_keeps_a_line, delete_selection_keeps_a_line.
Qed.

(** C6: a buffer with at least one line and its cursor in range has at
    least one line after any operation (a cursor move, [insert_char],
    [delete_left], [delete_right], [split_line], deleting the selection),
    also when the operation raises. *)
Theorem operations_keep_a_line (d : Dialog.t) (o : operation) :
  1 ≤ length (Dialog._unnamed d) →
  cursor_in_range d →
  1 ≤ length (Dialog._unnamed (exec (run o) d)).
Proof.
  intros Hlen _.
  pose proof (run_keeps_a_line o d) as H. unfold keeps_a_line in H.
  destruct (Dialog._unnamed (exec (run o) d)) eqn:Heq.
  - exfalso. apply H; [|done]. intros Hnil. rewrite Hnil in Hlen. simpl in Hlen. lia.
  - simpl. lia.
Qed.

Lemma operations_keep_a_line_witness :
  1 ≤ length (Dialog._unnamed abc_def_selected)
  ∧ cursor_in_range abc_def_selected
  ∧ 1 ≤ length (Dialog._unnamed (exec (run op_delete_left) abc_def_selected)).
Proof.
  split; [vm_compute; lia|]. split; [vm_compute; lia|].
  apply (operations_keep_a_line abc_def_selected op_delete_left);
    vm_compute; lia.
Defined.

(** ** Canonical keys and the shift fallback *)

(** C2: a key event for "a" with shift and no other modifier has the
    canonical string "shift+a"; and with any binding table that has no
    entry for "shift+a" but one for "a", [_dispatch] calls the command
    bound to "a" and not [unbound_key]. *)
Theorem shift_a_falls_back_to_a (mk : ModifiedKey) :
  key mk = "a"%string →
  shift mk = true →
  ctrl mk = false → alt mk = false → meta mk = false →
  _canon mk = "shift+a"%string
  ∧ ∀ (handler : Type) (_bindings : gmap string handler) (func : handler),
      _bindings !! "shift+a"%string = None →
      _bindings !! "a"%string = Some func →
      AppletDialog._dispatch _bindings mk = AppletDialog.Command func mk.
Proof.
  intros Hkey Hshift Hctrl Halt Hmeta.
  assert (Hcanon : _canon mk = "shift+a"%string).
  { unfold _canon. by rewrite Hkey, Hshift, Hctrl, Halt, Hmeta. }
  split; [exact Hcanon|].
  intros handler _bindings func Hexact Hplain.
  unfold AppletDialog._dispatch. rewrite Hcanon, Hexact, Hshift.
  change (replace "shift+" "" "shift+a") with "a"%string.
  by rewrite Hplain.
Qed.

Lemma shift_a_falls_back_to_a_witness :
  _canon shift_a = "shift+a"%string
  ∧ AppletDialog._dispatch (<["a"%string := 7]> ∅ : gmap string nat) shift_a
    = AppletDialog.Command 7 shift_a.
Proof.
  destruct (shift_a_falls_back_to_a shift_a) as [Hcanon Hdispatch];
    [reflexivity..|].
  split; [exact Hcanon|].
  apply Hdispatch; reflexivity.
Defined.

(** ** Activating an unknown applet *)

(** C7: [activate(name)] for a name without a registered class raises
    [KeyError(name)] and leaves the router as it was: no instance is
    built or started, both registries and the active name are unchanged
    and no applet hook is called. *)
Theorem activate_unknown_changes_nothing
    {klass applet : Type} (construct : klass → string → applet)
    (a : Anchor.t klass applet) (name : string) :
  Anchor._applet_classes a !! name = None →
  Anchor.activate construct name a = (a, Raise (KeyError name)).
Proof. intros Hnone. unfold Anchor.activate, bind, get. by rewrite Hnone. Qed.

Lemma activate_unknown_changes_nothing_witness :
  Anchor._applet_classes editor_only !! "mail"%string = None
  ∧ Anchor.activate (λ _ name, name) "mail" editor_only
    = (editor_only, Raise (KeyError "mail")).
Proof.
  split; [reflexivity|].
  apply (activate_unknown_changes_nothing (λ _ name, name) editor_only "mail").
  reflexivity.
Defined.

(** ** Saving and reading back *)

Lemma split_on_clean (sep : ascii) (text : string) :
  has_char sep text = false → split_on sep text = [text].
Proof.
  induction text as [|c rest IH]; simpl; [done|].
  intros [Hc Hrest]%orb_false_iff. apply bool_decide_eq_false in Hc.
  destruct (decide (c = sep)); [done|]. by rewrite IH.
Qed.

Lemma split_on_app (sep : ascii) (text rest : string) :
  has_char sep text = false →
  split_on sep (text +:+ String sep rest) = text :: split_on sep rest.
Proof.
  induction text as [|c text IH]; simpl.
  - intros _. by destruct (decide (sep = sep)).
  - intros [Hc Htext]%orb_false_iff. apply bool_decide_eq_false in Hc.
    destruct (decide (c = sep)); [done|]. by rewrite IH.
Qed.

Lemma split_on_join (ls : list string) :
  ls ≠ [] →
  Forall (λ l, has_char "010" l = false) ls →
  split_on "010" (join EditorApplet.newline ls) = ls.
Proof.
  intros Hne Hclean.
  induction Hclean as [|l ls Hl Hls IH]; [done|].
  destruct ls as [|l' ls].
  - by apply split_on_clean.
  - change (join EditorApplet.newline (l :: l' :: ls))
      with (l +:+ String "010" (join EditorApplet.newline (l' :: ls))).
    rewrite split_on_app by done. f_equal. by apply IH.
Qed.

(** [command_save] stores the joined lines under the file name it
    settles on, and cutting that text at its newlines gives the lines. *)
Lemma command_save_reads_back (mk : ModifiedKey) (e : EditorApplet.t) :
  Dialog.lines (EditorApplet.buffer e) ≠ [] →
  Forall (λ l, has_char "010" l = false) (Dialog.lines (EditorApplet.buffer e)) →
  ∃ path text,
    EditorApplet._filename (EditorApplet.command_save mk e) = Some path
    ∧ EditorApplet.files (EditorApplet.command_save mk e) !! path = Some text
    ∧ split_on "010" text = Dialog.lines (EditorApplet.buffer e).
Proof.
  intros Hne Hclean. unfold EditorApplet.command_save. simpl.
  eexists _, _. split; [done|]. split; [apply lookup_insert_eq|].
  by apply split_on_join.
Qed.

(** C8: for a non-empty sequence of lines without newline characters,
    joining the lines with newlines, as [command_save] writes them, and
    cutting the text at its newlines gives back the same sequence, empty
    trailing lines included. *)
Theorem save_then_split_round_trip (ls : list string) :
  ls ≠ [] →
  Forall (λ l, has_char "010" l = false) ls →
  split_on "010" (join EditorApplet.newline ls) = ls.
Proof. apply split_on_join. Qed.

Lemma save_then_split_round_trip_witness :
  ["hi"; ""; "there"; ""; ""]%string ≠ []
  ∧ Forall (λ l, has_char "010" l = false) ["hi"; ""; "there"; ""; ""]%string
  ∧ split_on "010" (join EditorApplet.newline ["hi"; ""; "there"; ""; ""]%string)
    = ["hi"; ""; "there"; ""; ""]%string.
Proof.
  split; [discriminate|].
  split; [repeat constructor|].
  apply (save_then_split_round_trip ["hi"; ""; "there"; ""; ""]%string);
    [discriminate|repeat constructor].
Defined.

(** ** What [split_line] does to the text *)

Lemma append_cons (x : ascii) (a b : string) :
  String x a +:+ b = String x (a +:+ b).
Proof. reflexivity. Qed.

Lemma append_assoc (a b c : string) : (a +:+ b) +:+ c = a +:+ (b +:+ c).
Proof. induction a as [|x a IH]; [done|]. by rewrite !append_cons, IH. Qed.

Lemma append_empty_r (a : string) : a +:+ EmptyString = a.
Proof. induction a as [|x a IH]; [done|]. by rewrite append_cons, IH. Qed.

Lemma str_take_drop (k : nat) (text : string) :
  str_take k text +:+ str_drop k text = text.
Proof.
  revert text. induction k as [|k IH]; intros [|c text]; try done.
  cbn [str_take str_drop]. by rewrite append_cons, IH.
Qed.

Lemma concat_text_app (l k : list string) :
  concat_text (l ++ k) = concat_text l +:+ concat_text k.
Proof.
  unfold concat_text.
  induction l as [|x l IH]; [done|].
  cbn [foldr app]. by rewrite IH, append_assoc.
Qed.

(** The rule of [split_line] with the cursor on a line of the buffer: the
    line keeps its text before the cursor, the rest becomes a new line
    right after it, and the cursor goes to the start of that line. *)
Lemma split_line_at (d : Dialog.t) (cl : nat) (v : option string) :
  Dialog.cursor_line d = Some cl →
  Dialog._unnamed d !! cl = Some v →
  Dialog.split_line d
  = (Dialog.mk (take cl (Dialog._unnamed d)
                ++ Some (slice_to (Dialog.cursor_offset d) (or_empty v))
                   :: Some (slice_from (Dialog.cursor_offset d) (or_empty v))
                   :: drop (cl + 1) (Dialog._unnamed d))
               (Some (cl + 1)) (Some 0) (Dialog.selection d),
     Ok tt).
Proof.
  intros Hcl Hv.
  assert (Hlen : cl < length (Dialog._unnamed d)) by (by eapply lookup_lt_Some).
  unfold Dialog.split_line, Dialog.value_at, Dialog.as_int, Dialog.set_value,
    bind, get.
  rewrite Hcl. simpl. rewrite Hcl, Hv. simpl.
  do 2 f_equal. unfold list_insert_at.
  rewrite Nat.add_1_r.
  rewrite (take_S_r _ cl (Some (slice_to (Dialog.cursor_offset d) (or_empty v))))
    by (by apply list_lookup_insert_eq).
  rewrite take_insert_ge by lia. rewrite drop_insert_lt by lia.
  by rewrite <- app_assoc.
Qed.

(** With the cursor on a line of the buffer and a number as its offset,
    [split_line] keeps every character. *)
Lemma split_line_at_keeps_text (d : Dialog.t) (cl k : nat) (v : option string) :
  Dialog.cursor_line d = Some cl →
  Dialog._unnamed d !! cl = Some v →
  Dialog.cursor_offset d = Some k →
  concat_text (Dialog.lines (exec Dialog.split_line d))
  = concat_text (Dialog.lines d).
Proof.
  intros Hcl Hv Hoff. unfold exec.
  rewrite (split_line_at d cl v Hcl Hv), Hoff. unfold Dialog.lines. simpl.
  rewrite <- (take_drop_middle (Dialog._unnamed d) cl v Hv) at 3.
  rewrite !fmap_app, !fmap_cons, !concat_text_app. simpl.
  rewrite <- (append_assoc (str_take k (or_empty v))), str_take_drop.
  by rewrite Nat.add_1_r.
Qed.

Lemma split_line_keeps_text (d : Dialog.t) :
  is_Some (Dialog.cursor_offset d) →
  concat_text (Dialog.lines (exec Dialog.split_line d))
  = concat_text (Dialog.lines d).
Proof.
  intros [k Hoff].
  destruct (Dialog.cursor_line d) as [cl|] eqn:Hcl.
  - destruct (Dialog._unnamed d !! cl) as [v|] eqn:Hv.
    + by eapply split_line_at_keeps_text.
    + unfold exec, Dialog.split_line, Dialog.value_at, bind, get.
      rewrite Hcl. simpl. rewrite Hcl, Hv. reflexivity.
  - set (d1 := Dialog.mk (Dialog._unnamed d ++ [Some EmptyString]) (Some 0)
                         (Dialog.cursor_offset d) (Dialog.selection d)).
    assert (Hsame : Dialog.split_line d = Dialog.split_line d1).
    { unfold Dialog.split_line, Dialog.add_line, bind, get. simpl.
      rewrite Hcl. simpl. rewrite Hcl. reflexivity. }
    unfold exec. rewrite Hsame.
    assert (Hfirst : is_Some (Dialog._unnamed d1 !! 0)).
    { apply lookup_lt_is_Some. subst d1. simpl. rewrite length_app. simpl. lia. }
    destruct Hfirst as [v Hv].
    transitivity (concat_text (Dialog.lines d1)).
    + by apply (split_line_at_keeps_text d1 0 k v).
    + unfold Dialog.lines. subst d1. simpl.
      rewrite fmap_app, concat_text_app. simpl. by rewrite append_empty_r.
Qed.

(** [insert_char], by contrast, deletes an active selection before it
    inserts: on ["abc", "def"] with (0, 3) to (1, 1) selected, typing "x"
    leaves ["abcxef"]. *)
Lemma insert_char_deletes_active_selection :
  Dialog.lines (exec (Dialog.insert_char "x") abc_def_selected) = ["abcxef"%string]
  ∧ Dialog.selection (exec (Dialog.insert_char "x") abc_def_selected)
    = Selection.init
  ∧ Dialog.lines (exec Dialog.split_line abc_def_selected)
    = ["abc"; ""; "def"]%string.
Proof. by repeat split. Qed.

(** C9: [split_line] leaves the selection as it found it, anchor and
    extent alike, and with them [is_active()], in every buffer state; and
    it deletes nothing, selected or not: with a number as cursor offset the
    text of the buffer, line after line, is the same before and after. *)
Theorem split_line_keeps_selection (d : Dialog.t) :
  Dialog.selection (exec Dialog.split_line d) = Dialog.selection d
  ∧ Selection.is_active (Dialog.selection (exec Dialog.split_line d))
    = Selection.is_active (Dialog.selection d)
  ∧ (is_Some (Dialog.cursor_offset d) →
     concat_text (Dialog.lines (exec Dialog.split_line d))
     = concat_text (Dialog.lines d)).
Proof.
  pose proof (split_line_same_selection d) as H.
  unfold same_selection in H. rewrite H.
  repeat split. apply split_line_keeps_text.
Qed.

Lemma split_line_keeps_selection_witness :
  Dialog.selection (exec Dialog.split_line abc_def_selected)
  = Dialog.selection abc_def_selected
  ∧ Selection.is_active (Dialog.selection (exec Dialog.split_line abc_def_selected))
    = true
  ∧ concat_text (Dialog.lines (exec Dialog.split_line abc_def_selected))
    = "abcdef"%string.
Proof.
  destruct (split_line_keeps_selection abc_def_selected) as (Hsel & Hact & Htext).
  split; [exact Hsel|]. split; [exact Hact|].
  apply Htext. by eexists.
Defined.

(** * Further properties of the buffer *)

(** ** Cursor movement *)

Lemma update_selection_eq (is_shifted : bool) (prev_line prev_offset : option nat)
    (d : Dialog.t) :
  Dialog._update_selection is_shifted prev_line prev_offset d
  = (Dialog.mk (Dialog._unnamed d) (Dialog.cursor_line d) (Dialog.cursor_offset d)
               (updated_selection is_shifted (prev_line, prev_offset) d),
     Ok tt).
Proof.
  unfold Dialog._update_selection, updated_selection, bind, get.
  destruct is_shifted; [|done]. simpl.
  by destruct (Selection.is_active (Dialog.selection d)).
Qed.

Lemma cursor_in_range_inv (d : Dialog.t) :
  cursor_in_range d →
  ∃ cl off v, Dialog.cursor_line d = Some cl
              ∧ Dialog.cursor_offset d = Some off
              ∧ Dialog._unnamed d !! cl = Some v
              ∧ off ≤ String.length (or_empty v).
Proof.
  unfold cursor_in_range.
  destruct (Dialog.cursor_line d) as [cl|]; [|done].
  destruct (Dialog.cursor_offset d) as [off|]; [|done].
  destruct (Dialog._unnamed d !! cl) as [v|] eqn:Hv; [|done].
  intros Hoff. by exists cl, off, v.
Qed.

Lemma line_length_lookup (d : Dialog.t) (i : nat) (v : option string) :
  Dialog._unnamed d !! i = Some v → line_length d i = String.length (or_empty v).
Proof. unfold line_length. by intros ->. Qed.

(** With the cursor in range a movement either returns at once or sets the
    cursor to its target and applies the selection rule; it does not
    raise. *)
Lemma move_eq (m : movement) (is_shifted : bool) (d : Dialog.t) (cl off : nat) :
  cursor_in_range d →
  Dialog.cursor_line d = Some cl →
  Dialog.cursor_offset d = Some off →
  move m is_shifted d
  = match move_target m d cl off with
    | None => (d, Ok tt)
    | Some p =>
        Dialog._update_selection is_shifted (Some cl) (Some off) (with_cursor d p)
    end.
Proof.
  intros Hrange Hcl Hoff.
  destruct (cursor_in_range_inv d Hrange) as (cl' & off' & v & Hcl' & Hoff' & Hv & Hle).
  rewrite Hcl in Hcl'. rewrite Hoff in Hoff'. simplify_eq.
  assert (Hlen : cl' < length (Dialog._unnamed d)) by (by eapply lookup_lt_Some).
  destruct d as [ls ? ? sel]. simpl in *. subst.
  destruct m; simpl;
    unfold Dialog.move_left, Dialog.move_right, Dialog.move_up, Dialog.move_down,
      Dialog.move_home, Dialog.move_end, Dialog.value_at, Dialog.as_int, bind, get,
      line_length, with_cursor;
    simpl; rewrite ?Hv; simpl.
  - (* left *)
    destruct (decide (0 < off')); simpl; [done|].
    destruct (decide (0 < cl')); simpl; [|done].
    destruct (ls !! (cl' - 1)) as [pv|] eqn:Hpv; simpl; [done|].
    apply lookup_ge_None in Hpv. lia.
  - (* right *)
    destruct (decide (off' < String.length (or_empty v))); simpl; [done|].
    by destruct (decide (cl' + 1 < length ls)).
  - (* up *)
    destruct (decide (cl' = 0)); [done|]. simpl.
    destruct (ls !! (cl' - 1)) as [pv|] eqn:Hpv; simpl; [done|].
    apply lookup_ge_None in Hpv. lia.
  - (* down *)
    destruct (decide (length ls ≤ cl' + 1)); [done|]. simpl.
    destruct (ls !! (cl' + 1)) as [nv|] eqn:Hnv; simpl; [done|].
    apply lookup_ge_None in Hnv. lia.
  - (* home *) done.
  - (* end *) done.
Qed.

Lemma cursor_in_range_position (d : Dialog.t) (cl off : nat) :
  Dialog.cursor_line d = Some cl →
  Dialog.cursor_offset d = Some off →
  cursor_in_range d ↔ position_in_range d (cl, off).
Proof.
  intros Hcl Hoff. unfold cursor_in_range, position_in_range, line_length.
  rewrite Hcl, Hoff. simpl.
  destruct (Dialog._unnamed d !! cl) as [v|] eqn:Hv; simpl.
  - apply lookup_lt_Some in Hv. split; [by intros; split|by intros [_ ?]].
  - apply lookup_ge_None in Hv. split; [done|]. lia.
Qed.

Lemma move_target_in_range (m : movement) (d : Dialog.t) (cl off : nat) (p : nat * nat) :
  position_in_range d (cl, off) →
  move_target m d cl off = Some p →
  position_in_range d p.
Proof.
  unfold position_in_range. simpl. intros [Hcl Hoff] Htarget.
  destruct m; simpl in Htarget; repeat case_decide; simplify_eq; simpl; lia.
Qed.

(** The buffer a movement leaves when the cursor is in range. *)
Lemma exec_move (m : movement) (is_shifted : bool) (d : Dialog.t) (cl off : nat) :
  cursor_in_range d →
  Dialog.cursor_line d = Some cl →
  Dialog.cursor_offset d = Some off →
  move m is_shifted d
  = (match move_target m d cl off with
     | None => d
     | Some p =>
         Dialog.mk (Dialog._unnamed d) (Some p.1) (Some p.2)
           (updated_selection is_shifted (Some cl, Some off) (with_cursor d p))
     end, Ok tt).
Proof.
  intros Hrange Hcl Hoff. rewrite (move_eq m is_shifted d cl off) by done.
  destruct (move_target m d cl off) as [p|]; [|done].
  by rewrite update_selection_eq.
Qed.

Lemma move_in_range (m : movement) (is_shifted : bool) (d : Dialog.t) :
  cursor_in_range d →
  outcome (move m is_shifted) d = Ok tt
  ∧ Dialog._unnamed (exec (move m is_shifted) d) = Dialog._unnamed d
  ∧ cursor_in_range (exec (move m is_shifted) d).
Proof.
  intros Hrange.
  destruct (cursor_in_range_inv d Hrange) as (cl & off & v & Hcl & Hoff & _ & _).
  unfold outcome, exec. rewrite (exec_move m is_shifted d cl off) by done.
  simpl. split; [done|].
  destruct (move_target m d cl off) as [p|] eqn:Htarget; [|done].
  simpl. split; [done|].
  apply (cursor_in_range_position _ p.1 p.2); [done..|].
  apply (cursor_in_range_position d cl off) in Hrange; [|done..].
  pose proof (move_target_in_range m d cl off p Hrange Htarget) as Hp.
  by destruct p.
Qed.

(** With the cursor in range, each of the six movements, shifted or not,
    returns normally, leaves the lines alone and leaves the cursor in
    range. *)
Theorem move_keeps_cursor_in_range (m : movement) (is_shifted : bool) (d : Dialog.t) :
  cursor_in_range d →
  outcome (move m is_shifted) d = Ok tt
  ∧ Dialog._unnamed (exec (move m is_shifted) d) = Dialog._unnamed d
  ∧ cursor_in_range (exec (move m is_shifted) d).
Proof. apply move_in_range. Qed.

Lemma move_keeps_cursor_in_range_witness :
  cursor_in_range abc_def_selected
  ∧ outcome (move up true) abc_def_selected = Ok tt
  ∧ Dialog._unnamed (exec (move up true) abc_def_selected)
    = Dialog._unnamed abc_def_selected
  ∧ cursor_in_range (exec (move up true) abc_def_selected).
Proof.
  split; [vm_compute; lia|].
  apply (move_keeps_cursor_in_range up true abc_def_selected). vm_compute; lia.
Defined.

(** The cursor a pair of movements leaves, read off [move_target]. *)
Lemma cursor_after_two_moves (m1 m2 : movement) (s1 s2 : bool) (d : Dialog.t)
    (cl off : nat) (p q : nat * nat) :
  cursor_in_range d →
  Dialog.cursor_line d = Some cl →
  Dialog.cursor_offset d = Some off →
  move_target m1 d cl off = Some p →
  move_target m2 d p.1 p.2 = Some q →
  cursor (exec (move m2 s2) (exec (move m1 s1) d)) = (Some q.1, Some q.2).
Proof.
  intros Hrange Hcl Hoff Hp Hq.
  pose proof (move_in_range m1 s1 d Hrange) as (_ & _ & Hrange1).
  revert Hrange1. unfold exec.
  rewrite (exec_move m1 s1 d cl off) by done. rewrite Hp. simpl.
  intros Hrange1.
  rewrite (exec_move m2 s2 _ p.1 p.2) by done.
  assert (Htarget : ∀ sel, move_target m2
            (Dialog.mk (Dialog._unnamed d) (Some p.1) (Some p.2) sel) p.1 p.2
            = Some q).
  { intros sel. rewrite <- Hq. by destruct m2. }
  by rewrite Htarget.
Qed.

(** [move_right] undoes [move_left], with or without shift on either,
    unless the cursor was at the very start of the buffer, where
    [move_left] does not move. *)
Theorem move_right_undoes_move_left (s1 s2 : bool) (d : Dialog.t) :
  cursor_in_range d →
  cursor d ≠ (Some 0, Some 0) →
  cursor (exec (move right s2) (exec (move left s1) d)) = cursor d.
Proof.
  intros Hrange Hstart.
  destruct (cursor_in_range_inv d Hrange) as (cl & off & v & Hcl & Hoff & Hv & Hle).
  assert (Hpos : position_in_range d (cl, off))
    by (by apply (cursor_in_range_position d cl off)).
  destruct Hpos as [Hlen Hoff']. simpl in Hlen, Hoff'.
  assert (Hcur : cursor d = (Some cl, Some off))
    by (unfold cursor; by rewrite Hcl, Hoff).
  rewrite Hcur in *.
  destruct (decide (0 < off)).
  - rewrite (cursor_after_two_moves left right s1 s2 d cl off
               (cl, off - 1) (cl, off)); try done.
    + simpl. by rewrite decide_True.
    + simpl. rewrite decide_True by lia. do 2 f_equal. lia.
  - assert (0 < cl) by (destruct cl, off; [done|lia..]).
    rewrite (cursor_after_two_moves left right s1 s2 d cl off
               (cl - 1, line_length d (cl - 1)) (cl, off)); try done.
    + simpl. rewrite decide_False, decide_True by lia. done.
    + simpl. rewrite decide_False, decide_True by lia. do 2 f_equal; lia.
Qed.

Lemma move_right_undoes_move_left_witness :
  cursor_in_range ab_cd_at_line_start
  ∧ cursor ab_cd_at_line_start ≠ (Some 0, Some 0)
  ∧ cursor (exec (move right false) (exec (move left true) ab_cd_at_line_start))
    = cursor ab_cd_at_line_start.
Proof.
  split; [vm_compute; lia|]. split; [discriminate|].
  apply (move_right_undoes_move_left true false ab_cd_at_line_start);
    [vm_compute; lia|discriminate].
Defined.

(** [move_left] undoes [move_right] unless the cursor was at the very end
    of the buffer, where [move_right] does not move. *)
Theorem move_left_undoes_move_right (s1 s2 : bool) (d : Dialog.t) :
  cursor_in_range d →
  cursor d ≠ (Some (length (Dialog._unnamed d) - 1),
              Some (line_length d (length (Dialog._unnamed d) - 1))) →
  cursor (exec (move left s2) (exec (move right s1) d)) = cursor d.
Proof.
  intros Hrange Hend.
  destruct (cursor_in_range_inv d Hrange) as (cl & off & v & Hcl & Hoff & Hv & Hle).
  assert (Hpos : position_in_range d (cl, off))
    by (by apply (cursor_in_range_position d cl off)).
  destruct Hpos as [Hlen Hoff']. simpl in Hlen, Hoff'.
  assert (Hcur : cursor d = (Some cl, Some off))
    by (unfold cursor; by rewrite Hcl, Hoff).
  rewrite Hcur in *.
  destruct (decide (off < line_length d cl)).
  - rewrite (cursor_after_two_moves right left s1 s2 d cl off
               (cl, off + 1) (cl, off)); try done.
    + simpl. by rewrite decide_True.
    + simpl. rewrite decide_True by lia. do 2 f_equal. lia.
  - assert (off = line_length d cl) by lia. subst off.
    assert (cl + 1 < length (Dialog._unnamed d)).
    { destruct (decide (cl + 1 < length (Dialog._unnamed d))); [done|].
      exfalso. apply Hend.
      by replace (length (Dialog._unnamed d) - 1) with cl by lia. }
    rewrite (cursor_after_two_moves right left s1 s2 d cl (line_length d cl)
               (cl + 1, 0) (cl, line_length d cl)); try done.
    + simpl. rewrite decide_False, decide_True by lia. done.
    + simpl. repeat case_decide; try lia.
      by replace (cl + 1 - 1) with cl by lia.
Qed.

Lemma move_left_undoes_move_right_witness :
  cursor_in_range abc_def_selected
  ∧ cursor abc_def_selected
    ≠ (Some (length (Dialog._unnamed abc_def_selected) - 1),
       Some (line_length abc_def_selected
               (length (Dialog._unnamed abc_def_selected) - 1)))
  ∧ cursor (exec (move left false) (exec (move right true) abc_def_selected))
    = cursor abc_def_selected.
Proof.
  split; [vm_compute; lia|]. split; [discriminate|].
  apply (move_left_undoes_move_right true false abc_def_selected).
  - vm_compute. lia.
  - discriminate.
Defined.

(** ** Extending a selection *)

Lemma run_all_cons {S} (m : M S unit) (rest : list (M S unit)) (s : S) :
  outcome m s = Ok tt →
  run_all (m :: rest) s = run_all rest (exec m s).
Proof.
  unfold outcome, exec. simpl. unfold bind.
  destruct (m s) as [s' r]. simpl. by intros ->.
Qed.

(** A selection between two positions is active exactly when they
    differ. *)
Lemma is_active_positions (s : Selection.t) (p q : nat * nat) :
  anchor s = (Some p.1, Some p.2) →
  extent s = (Some q.1, Some q.2) →
  Selection.is_active s = true ↔ p ≠ q.
Proof.
  unfold anchor, extent. intros [= Hsl Hso] [= Hel Heo].
  rewrite is_active_true, Hsl, Hso, Hel, Heo.
  destruct p as [pl po], q as [ql qo]. simpl. split.
  - intros [_ [H|H]] [= ? ?]; by subst.
  - intros Hne. split; [done|].
    destruct (decide (pl = ql)) as [->|]; [right|left]; intros [= ?]; by subst.
Qed.

Lemma selecting_from_move (d d1 : Dialog.t) (m : movement) :
  cursor_in_range d →
  Selection.is_active (Dialog.selection d) = false →
  selecting_from d d1 →
  outcome (move m true) d1 = Ok tt
  ∧ selecting_from d (exec (move m true) d1).
Proof.
  intros Hrange Hinactive [Hrange1 Hsel].
  destruct (move_in_range m true d1 Hrange1) as (Hok & _ & Hrange2).
  split; [done|]. split; [done|].
  destruct (cursor_in_range_inv d Hrange) as (cl & off & _ & Hcl & Hoff & _).
  destruct (cursor_in_range_inv d1 Hrange1) as (cl1 & off1 & _ & Hcl1 & Hoff1 & _).
  unfold exec. rewrite (exec_move m true d1 cl1 off1) by done.
  destruct (move_target m d1 cl1 off1) as [p|]; simpl; [|done].
  right. unfold updated_selection, cursor. simpl. split; [|done].
  destruct (Selection.is_active (Dialog.selection d1)) eqn:Hactive1.
  - destruct Hsel as [[Hsame _]|[Hanchor _]]; [|done].
    rewrite Hsame in Hactive1. congruence.
  - unfold anchor. simpl. rewrite <- Hcl1, <- Hoff1.
    change (cursor d1 = cursor d).
    destruct Hsel as [[_ Hcursor]|[Hanchor Hextent]]; [done|].
    apply is_active_false in Hactive1 as [Hnone|[Hline Hoffset]].
    + unfold anchor, cursor in Hanchor. congruence.
    + rewrite <- Hextent, <- Hanchor. unfold anchor, extent. congruence.
Qed.

Lemma selecting_from_moves (d d1 : Dialog.t) (ms : list movement) :
  cursor_in_range d →
  Selection.is_active (Dialog.selection d) = false →
  selecting_from d d1 →
  outcome (run_all ((λ m, move m true) <$> ms)) d1 = Ok tt
  ∧ selecting_from d (exec (run_all ((λ m, move m true) <$> ms)) d1).
Proof.
  intros Hrange Hinactive. revert d1.
  induction ms as [|m ms IH]; intros d1 Hsel; [done|].
  destruct (selecting_from_move d d1 m Hrange Hinactive Hsel) as [Hok Hsel'].
  rewrite fmap_cons. unfold outcome, exec in *.
  rewrite run_all_cons by done. by apply IH.
Qed.

(** Starting from a cursor in range and an inactive selection, any run of
    shifted movements (all six kinds) returns normally, and afterwards the
    selection is active exactly when the cursor has ended up somewhere
    other than where it started; it then stretches from the starting
    position, its anchor, to the cursor, its extent. *)
Theorem shifted_moves_select_from_start (d : Dialog.t) (ms : list movement) :
  cursor_in_range d →
  Selection.is_active (Dialog.selection d) = false →
  let d' := exec (run_all ((λ m, move m true) <$> ms)) d in
  outcome (run_all ((λ m, move m true) <$> ms)) d = Ok tt
  ∧ (Selection.is_active (Dialog.selection d') = true ↔ cursor d' ≠ cursor d)
  ∧ (Selection.is_active (Dialog.selection d') = true →
     anchor (Dialog.selection d') = cursor d
     ∧ extent (Dialog.selection d') = cursor d').
Proof.
  intros Hrange Hinactive d'.
  assert (Hstart : selecting_from d d) by (split; [done|by left]).
  destruct (selecting_from_moves d d ms Hrange Hinactive Hstart) as [Hok [Hrange' Hsel]].
  fold d' in Hrange', Hsel. split; [done|].
  destruct (cursor_in_range_inv d Hrange) as (cl & off & _ & Hcl & Hoff & _).
  destruct (cursor_in_range_inv d' Hrange') as (cl' & off' & _ & Hcl' & Hoff' & _).
  assert (Hcur : cursor d = (Some cl, Some off)) by (unfold cursor; congruence).
  assert (Hcur' : cursor d' = (Some cl', Some off')) by (unfold cursor; congruence).
  destruct Hsel as [[Hsame Hcursor]|[Hanchor Hextent]].
  - rewrite Hsame, Hinactive, Hcursor. split; [|done]. split; [done|]. by intros [].
  - split; [|done].
    rewrite (is_active_positions _ (cl, off) (cl', off'))
      by (simpl; congruence).
    rewrite Hcur, Hcur'. split.
    + intros Hne [= ? ?]. apply Hne. by subst.
    + intros Hne [= ? ?]. apply Hne. by subst.
Qed.

Lemma shifted_moves_select_from_start_witness :
  cursor_in_range ab_c
  ∧ Selection.is_active (Dialog.selection ab_c) = false
  ∧ outcome (run_all ((λ m, move m true) <$> [up; right; right; down; left])) ab_c
    = Ok tt
  ∧ anchor (Dialog.selection
              (exec (run_all ((λ m, move m true) <$> [up; right; right; down; left]))
                    ab_c))
    = cursor ab_c.
Proof.
  split; [vm_compute; lia|]. split; [reflexivity|].
  destruct (shifted_moves_select_from_start ab_c [up; right; right; down; left])
    as (Hok & Hiff & Hends); [vm_compute; lia|reflexivity|].
  split; [exact Hok|].
  apply Hends, Hiff. discriminate.
Defined.

(** ** Editing with no selection *)

Lemma length_append (a b : string) :
  String.length (a +:+ b) = String.length a + String.length b.
Proof.
  induction a as [|x a IH]; [done|].
  rewrite append_cons. simpl. by rewrite IH.
Qed.

Lemma str_take_app_length (a b : string) : str_take (String.length a) (a +:+ b) = a.
Proof.
  induction a as [|x a IH]; [by destruct b|].
  rewrite append_cons. simpl. by rewrite IH.
Qed.

Lemma str_drop_app_length (a b : string) : str_drop (String.length a) (a +:+ b) = b.
Proof.
  induction a as [|x a IH]; [by destruct b|].
  rewrite append_cons. simpl. by rewrite IH.
Qed.

Lemma length_str_take (k : nat) (text : string) :
  k ≤ String.length text → String.length (str_take k text) = k.
Proof.
  revert text. induction k as [|k IH]; intros [|c text]; simpl; try done; [lia|].
  intros Hk. rewrite IH; [done|lia].
Qed.

(** [insert_char] with no active selection: the text goes in at the
    cursor and the offset grows by one. *)
Lemma insert_char_at (ch : string) (d : Dialog.t) (cl off : nat) (v : option string) :
  Selection.is_active (Dialog.selection d) = false →
  Dialog.cursor_line d = Some cl →
  Dialog.cursor_offset d = Some off →
  Dialog._unnamed d !! cl = Some v →
  Dialog.insert_char ch d
  = (Dialog.mk (<[cl := Some (str_take off (or_empty v) +:+ ch
                          +:+ str_drop off (or_empty v))]> (Dialog._unnamed d))
               (Some cl) (Some (off + 1)) (Dialog.selection d),
     Ok tt).
Proof.
  intros Hsel Hcl Hoff Hv. destruct d as [ls ? ? sel]. simpl in *. subst.
  unfold Dialog.insert_char, Dialog.value_at, Dialog.as_int, Dialog.set_value,
    bind, get. simpl. rewrite Hsel. simpl. by rewrite Hv.
Qed.

(** [delete_left] inside a line: the character before the cursor goes. *)
Lemma delete_left_within_line (d : Dialog.t) (cl off : nat) (v : option string) :
  Selection.is_active (Dialog.selection d) = false →
  Dialog.cursor_line d = Some cl →
  Dialog.cursor_offset d = Some off →
  0 < off →
  Dialog._unnamed d !! cl = Some v →
  Dialog.delete_left d
  = (Dialog.mk (<[cl := Some (str_take (off - 1) (or_empty v)
                          +:+ str_drop off (or_empty v))]> (Dialog._unnamed d))
               (Some cl) (Some (off - 1)) (Dialog.selection d),
     Ok tt).
Proof.
  intros Hsel Hcl Hoff Hpos Hv. destruct d as [ls ? ? sel]. simpl in *. subst.
  unfold Dialog.delete_left, Dialog.value_at, Dialog.as_int, Dialog.set_value,
    bind, get. simpl. rewrite Hsel.
  destruct (decide (cl = 0 ∧ Some off = Some 0)) as [[_ [= ?]]|_]; [lia|].
  simpl. rewrite Hv. simpl. by destruct (decide (0 < off)); [|lia].
Qed.

(** [delete_right] at the end of a line that has a successor: the next
    line's text is appended and the next line removed; the cursor stays. *)
Lemma delete_right_merges_next (d : Dialog.t) (cl off : nat) (v nv : option string) :
  Selection.is_active (Dialog.selection d) = false →
  Dialog.cursor_line d = Some cl →
  Dialog.cursor_offset d = Some off →
  Dialog._unnamed d !! cl = Some v →
  String.length (or_empty v) ≤ off →
  Dialog._unnamed d !! (cl + 1) = Some nv →
  Dialog.delete_right d
  = (Dialog.mk (take cl (Dialog._unnamed d)
                ++ Some (or_empty v +:+ or_empty nv)
                   :: drop (cl + 2) (Dialog._unnamed d))
               (Some cl) (Some off) (Dialog.selection d),
     Ok tt).
Proof.
  intros Hsel Hcl Hoff Hv Hend Hnv. destruct d as [ls ? ? sel]. simpl in *. subst.
  assert (Hlen : cl + 1 < length ls) by (by eapply lookup_lt_Some).
  unfold Dialog.delete_right, Dialog.value_at, Dialog.as_int, Dialog.set_value,
    Dialog.del_line, bind, get. simpl. rewrite Hsel. simpl. rewrite Hv. simpl.
  destruct (decide (off < String.length (or_empty v))); [lia|].
  destruct (decide (cl + 1 < length ls)); [|lia]. simpl.
  rewrite Hnv. simpl. rewrite length_insert.
  destruct (decide (cl + 1 < length ls)); [|lia].
  unfold Dialog.set_unnamed, modify. simpl.
  rewrite delete_take_drop.
  replace (take (cl + 1)) with (take (A:=option string) (S cl)) by (f_equal; lia).
  rewrite insert_then_cut by lia.
  by replace (S (cl + 1)) with (cl + 2) by lia.
Qed.

Lemma lines_insert_same (ls : list (option string)) (cl : nat) (v : option string) :
  ls !! cl = Some v →
  or_empty <$> <[cl := Some (or_empty v)]> ls = or_empty <$> ls.
Proof.
  intros Hv. rewrite list_fmap_insert. apply list_insert_id.
  by rewrite list_lookup_fmap, Hv.
Qed.

(** With no active selection and the cursor in range, [delete_left]
    undoes [insert_char] of a single character: lines, cursor and
    selection are what they were. *)
Theorem delete_left_undoes_insert_char (ch : string) (d : Dialog.t) :
  cursor_in_range d →
  Selection.is_active (Dialog.selection d) = false →
  String.length ch = 1 →
  let d' := exec Dialog.delete_left (exec (Dialog.insert_char ch) d) in
  outcome Dialog.delete_left (exec (Dialog.insert_char ch) d) = Ok tt
  ∧ Dialog.lines d' = Dialog.lines d
  ∧ cursor d' = cursor d
  ∧ Dialog.selection d' = Dialog.selection d.
Proof.
  intros Hrange Hsel Hch d'.
  destruct (cursor_in_range_inv d Hrange) as (cl & off & v & Hcl & Hoff & Hv & Hle).
  assert (Hlen : cl < length (Dialog._unnamed d)) by (by eapply lookup_lt_Some).
  subst d'. unfold outcome, exec.
  rewrite (insert_char_at ch d cl off v) by done. simpl.
  erewrite (delete_left_within_line _ cl (off + 1)); simpl;
    [|done|done|done|lia|by apply list_lookup_insert_eq].
  simpl. split; [done|]. unfold Dialog.lines, cursor. simpl.
  rewrite list_insert_insert_eq.
  replace (off + 1 - 1) with off by lia.
  set (a := str_take off (or_empty v)). set (b := str_drop off (or_empty v)).
  assert (Ha : String.length a = off) by (by apply length_str_take).
  assert (Htake : str_take off (a +:+ ch +:+ b) = a).
  { rewrite <- Ha at 1. apply str_take_app_length. }
  assert (Hdrop : str_drop (off + 1) (a +:+ ch +:+ b) = b).
  { rewrite <- append_assoc.
    replace (off + 1) with (String.length (a +:+ ch))
      by (rewrite length_append; lia).
    apply str_drop_app_length. }
  rewrite Htake, Hdrop. subst a b. rewrite str_take_drop.
  rewrite (lines_insert_same _ cl v Hv), Hcl, Hoff. done.
Qed.

Lemma delete_left_undoes_insert_char_witness :
  cursor_in_range ab_c
  ∧ Selection.is_active (Dialog.selection ab_c) = false
  ∧ Dialog.lines (exec (Dialog.insert_char "x") ab_c) = ["axb"; "c"]%string
  ∧ Dialog.lines (exec Dialog.delete_left (exec (Dialog.insert_char "x") ab_c))
    = Dialog.lines ab_c.
Proof.
  split; [vm_compute; lia|]. split; [reflexivity|]. split; [reflexivity|].
  apply (delete_left_undoes_insert_char "x" ab_c);
    [vm_compute; lia|reflexivity|reflexivity].
Defined.

Lemma lines_middle (ls : list (option string)) (cl : nat) (v : option string) :
  ls !! cl = Some v →
  or_empty <$> (take cl ls ++ Some (or_empty v) :: drop (cl + 1) ls)
  = or_empty <$> ls.
Proof.
  intros Hv. rewrite <- (take_drop_middle ls cl v Hv) at 3.
  rewrite !fmap_app, !fmap_cons. simpl. by rewrite Nat.add_1_r.
Qed.

(** With no active selection and the cursor in range, [delete_left]
    undoes [split_line]: the two halves are joined again and the cursor
    is back where the line was split. *)
Theorem delete_left_undoes_split_line (d : Dialog.t) :
  cursor_in_range d →
  Selection.is_active (Dialog.selection d) = false →
  let d' := exec Dialog.delete_left (exec Dialog.split_line d) in
  outcome Dialog.delete_left (exec Dialog.split_line d) = Ok tt
  ∧ Dialog.lines d' = Dialog.lines d
  ∧ cursor d' = cursor d
  ∧ Dialog.selection d' = Dialog.selection d.
Proof.
  intros Hrange Hsel d'.
  destruct (cursor_in_range_inv d Hrange) as (cl & off & v & Hcl & Hoff & Hv & Hle).
  assert (Hlen : cl < length (Dialog._unnamed d)) by (by eapply lookup_lt_Some).
  subst d'. unfold outcome, exec.
  rewrite (split_line_at d cl v Hcl Hv), Hoff. simpl.
  erewrite (delete_left_merges_into_previous _ (cl + 1)
              (Some (str_take off (or_empty v)))
              (Some (str_drop off (or_empty v))));
    simpl; [|done|done|lia|done|..].
  - split; [done|]. unfold Dialog.lines, cursor. simpl.
    replace (cl + 1 - 1) with cl by lia.
    rewrite take_app_le by (rewrite length_take; lia).
    rewrite take_take, Nat.min_id.
    rewrite drop_app_ge by (rewrite length_take; lia).
    rewrite length_take_le by lia.
    replace (cl + 1 + 1 - cl) with 2 by lia. simpl. rewrite drop_0.
    rewrite str_take_drop, (lines_middle _ cl v Hv).
    by rewrite length_str_take, Hcl, Hoff by done.
  - replace (cl + 1 - 1) with cl by lia.
    rewrite lookup_app_r by (rewrite length_take; lia).
    by rewrite length_take_le, Nat.sub_diag by lia.
  - rewrite lookup_app_r by (rewrite length_take; lia).
    rewrite length_take_le by lia. by replace (cl + 1 - cl) with 1 by lia.
Qed.

Lemma delete_left_undoes_split_line_witness :
  cursor_in_range ab_c
  ∧ Selection.is_active (Dialog.selection ab_c) = false
  ∧ Dialog.lines (exec Dialog.split_line ab_c) = ["a"; "b"; "c"]%string
  ∧ Dialog.lines (exec Dialog.delete_left (exec Dialog.split_line ab_c))
    = Dialog.lines ab_c.
Proof.
  split; [vm_compute; lia|]. split; [reflexivity|]. split; [reflexivity|].
  apply (delete_left_undoes_split_line ab_c); [vm_compute; lia|reflexivity].
Defined.

(** At the end of a line that has a successor, and with no active
    selection, [delete_right] leaves the lines and the cursor that
    [move_right] followed by [delete_left] leave: both join the next line
    onto this one. *)
Theorem delete_right_joins_like_delete_left (d : Dialog.t) (cl : nat) :
  cursor_in_range d →
  Selection.is_active (Dialog.selection d) = false →
  cursor d = (Some cl, Some (line_length d cl)) →
  cl + 1 < length (Dialog._unnamed d) →
  let d1 := exec Dialog.delete_right d in
  let d2 := exec Dialog.delete_left (exec (Dialog.move_right false) d) in
  outcome Dialog.delete_right d = Ok tt
  ∧ Dialog._unnamed d1 = Dialog._unnamed d2
  ∧ cursor d1 = cursor d2
  ∧ length (Dialog._unnamed d1) + 1 = length (Dialog._unnamed d).
Proof.
  intros Hrange Hsel Hcur Hnext d1 d2.
  destruct (cursor_in_range_inv d Hrange) as (cl' & off & v & Hcl & Hoff & Hv & Hle).
  unfold cursor in Hcur. rewrite Hcl, Hoff in Hcur. simplify_eq.
  rewrite (line_length_lookup d cl v Hv) in *.
  destruct (lookup_lt_is_Some_2 _ _ Hnext) as [nv Hnv].
  subst d1 d2. unfold outcome, exec.
  rewrite (delete_right_merges_next d cl _ v nv) by done.
  change (Dialog.move_right false) with (move right false).
  rewrite (exec_move right false d cl (String.length (or_empty v))) by done.
  simpl. rewrite (line_length_lookup d cl v Hv).
  destruct (decide (String.length (or_empty v) < String.length (or_empty v))); [lia|].
  destruct (decide (cl + 1 < length (Dialog._unnamed d))); [|lia]. simpl.
  erewrite (delete_left_merges_into_previous _ (cl + 1) v nv);
    simpl; [|done|done|lia|done|by replace (cl + 1 - 1) with cl by lia|done].
  simpl. replace (cl + 1 - 1) with cl by lia.
  replace (cl + 1 + 1) with (cl + 2) by lia.
  split; [done|]. split; [done|]. split; [done|].
  rewrite length_app, length_take. simpl. rewrite length_drop. lia.
Qed.

Lemma delete_right_joins_like_delete_left_witness :
  cursor_in_range abc_def_selected
  ∧ Dialog.lines (exec Dialog.delete_right
                    (exec (Dialog.move_left false) (exec (Dialog.move_right false)
                       abc_def_selected)))
    = ["abcdef"%string].
Proof.
  split; [vm_compute; lia|].
  destruct (delete_right_joins_like_delete_left
              (exec (Dialog.move_left false) (exec (Dialog.move_right false)
                 abc_def_selected)) 0) as (_ & Hlines & _);
    [vm_compute; lia|reflexivity|reflexivity|vm_compute; lia|].
  unfold Dialog.lines. rewrite Hlines. reflexivity.
Defined.

(** Backspace at the very start of the buffer and delete at its very end
    do nothing when no selection is active: they return normally and
    leave lines, cursor and selection as they were. *)
Theorem delete_at_buffer_edges_is_noop (d : Dialog.t) :
  cursor_in_range d →
  Selection.is_active (Dialog.selection d) = false →
  (cursor d = (Some 0, Some 0) → Dialog.delete_left d = (d, Ok tt))
  ∧ (cursor d = (Some (length (Dialog._unnamed d) - 1),
                 Some (line_length d (length (Dialog._unnamed d) - 1))) →
     Dialog.delete_right d = (d, Ok tt)).
Proof.
  intros Hrange Hsel.
  destruct (cursor_in_range_inv d Hrange) as (cl & off & v & Hcl & Hoff & Hv & Hle).
  assert (Hlen : cl < length (Dialog._unnamed d)) by (by eapply lookup_lt_Some).
  unfold cursor. rewrite Hcl, Hoff. split; intros [= ? ?]; subst.
  - unfold Dialog.delete_left, bind, get. rewrite Hsel, Hcl, Hoff.
    by rewrite decide_True.
  - rewrite (line_length_lookup d _ v) in * by done.
    unfold Dialog.delete_right, Dialog.value_at, Dialog.as_int, bind, get.
    rewrite Hsel, Hcl. simpl. rewrite Hv. simpl. rewrite Hoff. simpl.
    destruct (decide (String.length (or_empty v) < String.length (or_empty v))); [lia|].
    by destruct (decide (length (Dialog._unnamed d) - 1 + 1
                         < length (Dialog._unnamed d))); [lia|].
Qed.

Lemma delete_at_buffer_edges_is_noop_witness :
  cursor_in_range abcd_at_2
  ∧ Dialog.delete_left (exec (Dialog.move_home false) abcd_at_2)
    = (exec (Dialog.move_home false) abcd_at_2, Ok tt)
  ∧ Dialog.delete_right (exec (Dialog.move_end false) abcd_at_2)
    = (exec (Dialog.move_end false) abcd_at_2, Ok tt).
Proof.
  split; [vm_compute; lia|]. split.
  - apply (delete_at_buffer_edges_is_noop (exec (Dialog.move_home false) abcd_at_2));
      [vm_compute; lia|reflexivity|reflexivity].
  - apply (delete_at_buffer_edges_is_noop (exec (Dialog.move_end false) abcd_at_2));
      [vm_compute; lia|reflexivity|reflexivity].
Defined.

(** ** Deleting a selection *)

Lemma ordered_positions (s : Selection.t) (p q : nat * nat) :
  anchor s = as_fields p →
  extent s = as_fields q →
  Selection.ordered s
  = Ok (if lex_le p q then (as_fields p, as_fields q)
        else (as_fields q, as_fields p)).
Proof.
  unfold anchor, extent, as_fields, Selection.ordered, tuple_le, lex_le.
  destruct p as [pl po], q as [ql qo]. simpl. intros [= -> ->] [= -> ->]. simpl.
  destruct (decide (Some pl = Some ql)) as [[= ->]|Hline].
  - destruct (decide (Some po = Some qo)) as [[= ->]|Hoff].
    + rewrite bool_decide_eq_true_2; [done|]. right. done.
    + simpl. destruct (decide (po ≤ qo)).
      * rewrite !bool_decide_eq_true_2; [done|right; done|done].
      * rewrite !bool_decide_eq_false_2; [done|lia|done].
  - simpl. assert (pl ≠ ql) by congruence.
    destruct (decide (pl ≤ ql)).
    + rewrite !bool_decide_eq_true_2; [done|left; lia|done].
    + rewrite !bool_decide_eq_false_2; [done|lia|done].
Qed.

(** When both ends of the selection are positions, [ordered()] returns
    them in reading order (by line, then by offset), whichever of the two
    is the anchor. *)
Theorem ordered_sorts_endpoints (s : Selection.t) (p q : nat * nat) :
  anchor s = as_fields p →
  extent s = as_fields q →
  ∃ first last,
    Selection.ordered s = Ok (as_fields first, as_fields last)
    ∧ lex_le first last = true
    ∧ ((first = p ∧ last = q) ∨ (first = q ∧ last = p)).
Proof.
  intros Hp Hq. rewrite (ordered_positions s p q Hp Hq).
  destruct (lex_le p q) eqn:Hle.
  - exists p, q. split; [done|]. split; [done|]. by left.
  - exists q, p. split; [done|]. split; [|by right].
    unfold lex_le in *. apply bool_decide_eq_false in Hle.
    apply bool_decide_eq_true. destruct p, q. simpl in *. lia.
Qed.

Lemma ordered_sorts_endpoints_witness :
  ∃ first last,
    Selection.ordered (Dialog.selection abc_def_selected)
    = Ok (as_fields first, as_fields last)
    ∧ lex_le first last = true
    ∧ ((first = (1, 1) ∧ last = (0, 3)) ∨ (first = (0, 3) ∧ last = (1, 1))).
Proof.
  apply (ordered_sorts_endpoints (Dialog.selection abc_def_selected) (1, 1) (0, 3));
    reflexivity.
Defined.

(** The rule of [_delete_selection] for endpoints on one line: the text
    between the two offsets goes. *)
Lemma delete_selection_within_line
    (d : Dialog.t) (l so eo : nat) (v : option string) :
  Selection.ordered (Dialog.selection d)
  = Ok ((Some l, Some so), (Some l, Some eo)) →
  Dialog._unnamed d !! l = Some v →
  Dialog._delete_selection d
  = (Dialog.mk (<[l := Some (str_take so (or_empty v) +:+ str_drop eo (or_empty v))]>
                  (Dialog._unnamed d))
               (Some l) (Some so) Selection.init,
     Ok tt).
Proof.
  intros Hord Hv.
  unfold Dialog._delete_selection, bind, get, lift. rewrite Hord.
  destruct (decide (Some l = Some l)); [|done].
  unfold Dialog.value_at, Dialog.set_value, Dialog.as_int, bind, get.
  by rewrite Hv.
Qed.

Lemma delete_selection_sorted (d : Dialog.t) (first last : nat * nat) :
  Selection.ordered (Dialog.selection d) = Ok (as_fields first, as_fields last) →
  lex_le first last = true →
  position_in_range d first →
  position_in_range d last →
  outcome Dialog._delete_selection d = Ok tt
  ∧ cursor (exec Dialog._delete_selection d) = as_fields first
  ∧ Dialog.selection (exec Dialog._delete_selection d) = Selection.init
  ∧ cursor_in_range (exec Dialog._delete_selection d)
  ∧ length (Dialog._unnamed (exec Dialog._delete_selection d))
    = length (Dialog._unnamed d) - (last.1 - first.1).
Proof.
  destruct first as [sl so], last as [el eo]. unfold as_fields, position_in_range.
  simpl. intros Hord Hle [Hsl Hso] [Hel Heo].
  apply bool_decide_eq_true in Hle. simpl in Hle.
  destruct (lookup_lt_is_Some_2 _ _ Hsl) as [fv Hfv].
  destruct (lookup_lt_is_Some_2 _ _ Hel) as [lv Hlv].
  rewrite (line_length_lookup d sl fv Hfv) in Hso.
  unfold outcome, exec.
  destruct (decide (sl = el)) as [->|Hne].
  - rewrite (delete_selection_within_line d el so eo fv) by done. simpl.
    split; [done|]. split; [done|]. split; [done|]. split.
    + unfold cursor_in_range. simpl. rewrite list_lookup_insert_eq by done. simpl.
      rewrite length_append, length_str_take by done. lia.
    + rewrite length_insert. lia.
  - rewrite (delete_selection_across_lines d sl so el eo fv lv) by (done || lia).
    simpl. split; [done|]. split; [done|]. split; [done|]. split.
    + unfold cursor_in_range. simpl. rewrite lookup_after_take by done. simpl.
      rewrite length_append, length_str_take by done. lia.
    + rewrite length_app, length_take. simpl. rewrite length_drop. lia.
Qed.

(** When both ends of the selection are positions of the buffer,
    [_delete_selection] returns normally and leaves a well-formed buffer:
    the cursor sits on the earlier end and is in range, the selection is
    reset, and the buffer has lost as many lines as the selection
    spanned line breaks. *)
Theorem delete_selection_leaves_cursor_in_range (d : Dialog.t) (p q : nat * nat) :
  anchor (Dialog.selection d) = as_fields p →
  extent (Dialog.selection d) = as_fields q →
  position_in_range d p →
  position_in_range d q →
  let first := if lex_le p q then p else q in
  let last := if lex_le p q then q else p in
  let d' := exec Dialog._delete_selection d in
  outcome Dialog._delete_selection d = Ok tt
  ∧ cursor d' = as_fields first
  ∧ Dialog.selection d' = Selection.init
  ∧ cursor_in_range d'
  ∧ length (Dialog._unnamed d') = length (Dialog._unnamed d) - (last.1 - first.1).
Proof.
  intros Hp Hq Hprange Hqrange first last d'. subst first last d'.
  pose proof (ordered_positions _ p q Hp Hq) as Hord.
  destruct (lex_le p q) eqn:Hle.
  - by apply delete_selection_sorted.
  - apply delete_selection_sorted; try done.
    unfold lex_le in *. apply bool_decide_eq_false in Hle.
    apply bool_decide_eq_true. destruct p, q. simpl in *. lia.
Qed.

Lemma delete_selection_leaves_cursor_in_range_witness :
  outcome Dialog._delete_selection abc_def_selected = Ok tt
  ∧ cursor (exec Dialog._delete_selection abc_def_selected) = as_fields (0, 3)
  ∧ Dialog.selection (exec Dialog._delete_selection abc_def_selected)
    = Selection.init
  ∧ cursor_in_range (exec Dialog._delete_selection abc_def_selected)
  ∧ length (Dialog._unnamed (exec Dialog._delete_selection abc_def_selected)) = 1.
Proof.
  apply (delete_selection_leaves_cursor_in_range abc_def_selected (1, 1) (0, 3));
    try reflexivity; vm_compute; lia.
Defined.

(** Without an anchor there is nothing [_delete_selection] can delete: it
    raises [TypeError] before it changes anything, which is why its
    callers ask [is_active()] first. *)
Theorem delete_selection_without_anchor_raises (d : Dialog.t) :
  Selection.start_line (Dialog.selection d) = None →
  Dialog._delete_selection d = (d, Raise TypeError).
Proof.
  intros Hnone. unfold Dialog._delete_selection, bind, get, lift.
  unfold Selection.ordered, tuple_le. simpl. rewrite Hnone.
  destruct (Selection.end_line (Dialog.selection d)) as [el|]; [done|].
  destruct (decide (None = None)); [|done].
  destruct (Selection.start_offset (Dialog.selection d)) as [so|],
    (Selection.end_offset (Dialog.selection d)) as [eo|]; simpl;
    repeat case_decide; try done;
    destruct (bool_decide (so ≤ eo)); simpl; by case_decide.
Qed.

Lemma delete_selection_without_anchor_raises_witness :
  Selection.start_line (Dialog.selection ab_c) = None
  ∧ Dialog._delete_selection ab_c = (ab_c, Raise TypeError).
Proof.
  split; [reflexivity|].
  apply (delete_selection_without_anchor_raises ab_c). reflexivity.
Defined.

(** ** Filling a buffer *)

Lemma add_lines_from (vs : list string) (d : Dialog.t) (cl : nat) :
  Dialog.cursor_line d = Some cl →
  run_all (Dialog.add_line <$> vs) d
  = (Dialog.mk (Dialog._unnamed d ++ (Some <$> vs)) (Some cl)
               (Dialog.cursor_offset d) (Dialog.selection d), Ok tt).
Proof.
  revert d. induction vs as [|v vs IH]; intros d Hcl.
  - simpl. rewrite app_nil_r. destruct d. simpl in *. by subst.
  - rewrite fmap_cons.
    assert (Hstep : Dialog.add_line v d
              = (Dialog.mk (Dialog._unnamed d ++ [Some v]) (Some cl)
                           (Dialog.cursor_offset d) (Dialog.selection d), Ok tt)).
    { unfold Dialog.add_line, bind, get. simpl. by rewrite Hcl. }
    rewrite run_all_cons by (unfold outcome; by rewrite Hstep).
    unfold exec. rewrite Hstep. simpl. rewrite IH by done. simpl.
    by rewrite <- app_assoc.
Qed.

(** [add_line] called for each of a non-empty sequence of texts on a new
    [Dialog] gives a buffer whose [lines()] are those texts in order, with
    the cursor at (0, 0), in range, and no active selection. *)
Theorem add_line_fills_buffer (vs : list string) :
  vs ≠ [] →
  let d := exec (run_all (Dialog.add_line <$> vs)) Dialog.init in
  outcome (run_all (Dialog.add_line <$> vs)) Dialog.init = Ok tt
  ∧ Dialog.lines d = vs
  ∧ cursor d = (Some 0, Some 0)
  ∧ cursor_in_range d
  ∧ Selection.is_active (Dialog.selection d) = false.
Proof.
  destruct vs as [|v vs]; [done|]. intros _ d. subst d.
  rewrite fmap_cons. unfold outcome, exec.
  assert (Hfirst : Dialog.add_line v Dialog.init
            = (Dialog.mk [Some v] (Some 0) (Some 0) Selection.init, Ok tt)) by done.
  rewrite run_all_cons by (unfold outcome; by rewrite Hfirst).
  unfold exec. rewrite Hfirst. rewrite (add_lines_from vs _ 0) by done. simpl.
  split; [done|]. split.
  - unfold Dialog.lines. simpl. f_equal.
    rewrite <- list_fmap_compose. by rewrite list_fmap_id.
  - split; [done|]. split; [|done]. unfold cursor_in_range. simpl. lia.
Qed.

Lemma add_line_fills_buffer_witness :
  Dialog.lines (exec (run_all (Dialog.add_line <$> ["ab"; ""; "c"]%string)) Dialog.init)
  = ["ab"; ""; "c"]%string.
Proof.
  destruct (add_line_fills_buffer ["ab"; ""; "c"]%string) as (_ & Hlines & _);
    [discriminate|exact Hlines].
Defined.

(** * Further properties of keys and dispatch *)

Lemma append_empty_l (a : string) : EmptyString +:+ a = a.
Proof. reflexivity. Qed.




Lemma prefix_empty (s : string) : String.prefix EmptyString s = true.
Proof. by destruct s. Qed.


(** Stripping "shift+" from the canonical key of a shifted event whose
    key name does not itself contain "shift+" gives the canonical key of
    the event without shift. *)
Lemma shift_strip_canon (mk : ModifiedKey) :
  shift mk = true →
  replace "shift+" "" (lower (key mk)) = lower (key mk) →
  replace "shift+" "" (_canon mk) = _canon (unshifted mk).
Proof.
  intros Hshift Hclean. unfold _canon, unshifted. rewrite Hshift. simpl.
  set (k := lower (key mk)) in *.
  change (replace "shift+" "" k) with (replace_from 0 "shift+" "" k) in Hclean.
  destruct (ctrl mk), (alt mk), (meta mk); simpl;
    unfold replace; rewrite ?append_cons, ?append_empty_l; simpl;
    rewrite ?prefix_empty, ?append_empty_l, ?Hclean; reflexivity.
Qed.

Lemma dispatch_shift_fallback
    {handler : Type} (_bindings : gmap string handler) (mk : ModifiedKey) :
  shift mk = true →
  replace "shift+" "" (lower (key mk)) = lower (key mk) →
  _bindings !! _canon mk = None →
  AppletDialog._dispatch _bindings mk
  = match _bindings !! _canon (unshifted mk) with
    | Some func => AppletDialog.Command func mk
    | None => AppletDialog.unbound_key mk
    end.
Proof.
  intros Hshift Hclean Hnone. unfold AppletDialog._dispatch.
  by rewrite Hnone, Hshift, shift_strip_canon.
Qed.

(** A shifted event that has no binding of its own, and whose key name
    does not contain "shift+", is dispatched to whatever the same event
    without shift is bound to; the command still receives the shifted
    event.  Without such a binding it goes to [unbound_key]. *)
Theorem dispatch_shift_falls_back_to_unshifted
    {handler : Type} (_bindings : gmap string handler) (mk : ModifiedKey) :
  shift mk = true →
  replace "shift+" "" (lower (key mk)) = lower (key mk) →
  _bindings !! _canon mk = None →
  AppletDialog._dispatch _bindings mk
  = match _bindings !! _canon (unshifted mk) with
    | Some func => AppletDialog.Command func mk
    | None => AppletDialog.unbound_key mk
    end.
Proof. apply dispatch_shift_fallback. Qed.

Lemma dispatch_shift_falls_back_to_unshifted_witness :
  AppletDialog._dispatch EditorApplet._bindings
    {| key := "S"; ctrl := true; alt := false; shift := true; meta := false |}
  = AppletDialog.Command EditorApplet.command_save_
      {| key := "S"; ctrl := true; alt := false; shift := true; meta := false |}.
Proof.
  rewrite (dispatch_shift_falls_back_to_unshifted EditorApplet._bindings
             {| key := "S"; ctrl := true; alt := false; shift := true; meta := false |});
    reflexivity.
Defined.

(** ** Discovering bindings *)

Section Discover.
Context {handler : Type}.
Implicit Types attrs : list (string * (handler * option string)).

Lemma discover_bindings_snoc attrs (attr : string * (handler * option string)) :
  AppletDialog._discover_bindings (attrs ++ [attr])
  = (let '(attr_name, (func, binding)) := attr in
     if String.prefix "command_" attr_name then
       match binding with
       | Some b => if decide (b = EmptyString)
                   then AppletDialog._discover_bindings attrs
                   else <[b := func]> (AppletDialog._discover_bindings attrs)
       | None => AppletDialog._discover_bindings attrs
       end
     else AppletDialog._discover_bindings attrs).
Proof. unfold AppletDialog._discover_bindings. by rewrite foldl_app. Qed.

Lemma discover_bindings_lookup attrs (b : string) (func : handler) :
  AppletDialog._discover_bindings attrs !! b = Some func →
  ∃ attr_name,
    (attr_name, (func, Some b)) ∈ attrs
    ∧ String.prefix "command_" attr_name = true
    ∧ b ≠ EmptyString.
Proof.
  induction attrs as [|[attr_name [f binding]] attrs IH] using rev_ind; [done|].
  rewrite discover_bindings_snoc.
  assert (Hrest : AppletDialog._discover_bindings attrs !! b = Some func →
                  ∃ attr_name0,
                    (attr_name0, (func, Some b)) ∈ attrs ++ [(attr_name, (f, binding))]
                    ∧ String.prefix "command_" attr_name0 = true
                    ∧ b ≠ EmptyString).
  { intros (n & Hin & Hrest)%IH. exists n. split; [|done].
    apply elem_of_app. by left. }
  destruct (String.prefix "command_" attr_name) eqn:Hprefix; [|done].
  destruct binding as [b'|]; [|done].
  destruct (decide (b' = EmptyString)); [done|].
  destruct (decide (b' = b)) as [->|Hne].
  - rewrite lookup_insert_eq. intros [= ->]. exists attr_name.
    split; [|done]. apply elem_of_app. right. by apply list_elem_of_singleton.
  - by rewrite lookup_insert_ne.
Qed.

End Discover.

(** [_discover_bindings] only ever binds a [command_] attribute, under
    the non-empty binding its decorator attached: any entry of the table
    comes from such an attribute. *)
Theorem discover_bindings_only_commands
    {handler : Type} (attrs : list (string * (handler * option string)))
    (b : string) (func : handler) :
  AppletDialog._discover_bindings attrs !! b = Some func →
  ∃ attr_name,
    (attr_name, (func, Some b)) ∈ attrs
    ∧ String.prefix "command_" attr_name = true
    ∧ b ≠ EmptyString.
Proof. apply discover_bindings_lookup. Qed.

Lemma discover_bindings_only_commands_witness :
  ∃ attr_name,
    (attr_name, (EditorApplet.command_enter, Some "enter"%string)) ∈ EditorApplet.attrs
    ∧ String.prefix "command_" attr_name = true
    ∧ "enter"%string ≠ EmptyString.
Proof.
  apply (discover_bindings_only_commands EditorApplet.attrs "enter"
           EditorApplet.command_enter).
  reflexivity.
Defined.



(** * Further properties of the editor applet *)

(** No key the editor binds is one character long, and none is as long
    as "shift+" followed by one character. *)
Lemma editor_bindings_lengths (b : string) (c : EditorApplet.command) :
  EditorApplet._bindings !! b = Some c →
  String.length b ≠ 1 ∧ String.length b ≠ 7.
Proof.
  intros (attr_name & Hin & _)%discover_bindings_lookup.
  unfold EditorApplet.attrs in Hin.
  repeat (apply elem_of_cons in Hin as [[= _ _ ->]|Hin]; [vm_compute; lia|]).
  by apply elem_of_nil in Hin.
Qed.

Lemma length_lower (s : string) : String.length (lower s) = String.length s.
Proof. induction s as [|c s IH]; [done|]. simpl. by rewrite IH. Qed.

Lemma replace_shift_single (s : string) :
  String.length s = 1 → replace "shift+" "" s = s.
Proof.
  destruct s as [|c [|c' s]]; try done. intros _.
  destruct c as [[] [] [] [] [] [] [] []]; vm_compute; reflexivity.
Qed.

(** The text [unbound_key] inserts for a key event. *)
Lemma dispatch_single_character
    (isprintable : string → bool) (upper : string → string) (mk : ModifiedKey) :
  String.length (key mk) = 1 →
  ctrl mk = false → alt mk = false → meta mk = false →
  EditorApplet._dispatch isprintable upper mk
  = EditorApplet.unbound_key isprintable upper mk.
Proof.
  intros Hlen Hctrl Halt Hmeta. unfold EditorApplet._dispatch.
  assert (Hplain : EditorApplet._bindings !! lower (key mk) = None).
  { destruct (EditorApplet._bindings !! lower (key mk)) as [c|] eqn:Hc; [|done].
    apply editor_bindings_lengths in Hc. rewrite length_lower in Hc. lia. }
  destruct (shift mk) eqn:Hshift.
  - rewrite dispatch_shift_fallback; try done.
    + unfold _canon, unshifted. cbn [key ctrl alt shift meta].
      rewrite Hctrl, Halt, Hmeta. cbn [app join]. by rewrite Hplain.
    + apply replace_shift_single. by rewrite length_lower.
    + destruct (EditorApplet._bindings !! _canon mk) as [c|] eqn:Hc; [|done].
      apply editor_bindings_lengths in Hc as [_ Hc].
      unfold _canon in Hc. rewrite Hctrl, Halt, Hshift, Hmeta in Hc.
      cbn [app join] in Hc.
      rewrite !length_append, length_lower in Hc. cbn [String.length] in Hc. lia.
  - unfold AppletDialog._dispatch, _canon.
    rewrite Hctrl, Halt, Hshift, Hmeta. cbn [app join]. by rewrite Hplain.
Qed.

Lemma typing_inserts_character_aux
    (isprintable : string → bool) (upper : string → string)
    (mk : ModifiedKey) (e : EditorApplet.t) :
  String.length (key mk) = 1 →
  ctrl mk = false → alt mk = false → meta mk = false →
  EditorApplet._dispatch isprintable upper mk e
  = if isprintable (key mk)
    then EditorApplet.on_buffer
           (Dialog.insert_char (if shift mk then upper (key mk) else key mk)) e
    else (e, Ok tt).
Proof.
  intros Hlen Hctrl Halt Hmeta.
  rewrite dispatch_single_character by done.
  unfold EditorApplet.unbound_key. rewrite bool_decide_eq_true_2 by done.
  cbn [andb]. by destruct (isprintable (key mk)).
Qed.

(** A key event for a single character with at most shift held is bound
    to no command: when the character is printable the editor inserts it
    at the cursor, as [upper] gives it when shift is held; when it is not
    printable nothing changes. *)
Theorem typing_inserts_character
    (isprintable : string → bool) (upper : string → string)
    (mk : ModifiedKey) (e : EditorApplet.t) :
  String.length (key mk) = 1 →
  ctrl mk = false → alt mk = false → meta mk = false →
  EditorApplet._dispatch isprintable upper mk e
  = if isprintable (key mk)
    then EditorApplet.on_buffer
           (Dialog.insert_char (if shift mk then upper (key mk) else key mk)) e
    else (e, Ok tt).
Proof. apply typing_inserts_character_aux. Qed.

Lemma typing_inserts_character_witness :
  Dialog.lines
    (EditorApplet.buffer
       (exec (EditorApplet._dispatch (λ _, true) (λ _, "H"%string) (plain_key "h" true))
             EditorApplet.init))
  = ["H"%string].
Proof.
  unfold exec.
  rewrite (typing_inserts_character (λ _, true) (λ _, "H"%string)
             (plain_key "h" true) EditorApplet.init); reflexivity.
Defined.

(** The arrow, home and end keys run the movement they name, and holding
    shift, which has no binding of its own, runs the same movement with
    [is_shifted] set; the key name may be in any letter case. *)
Theorem movement_keys_move
    (isprintable : string → bool) (upper : string → string)
    (m : movement) (name : string) (with_shift : bool) :
  lower name = movement_key m →
  EditorApplet._dispatch isprintable upper (plain_key name with_shift)
  = EditorApplet.on_buffer (move m with_shift).
Proof.
  intros Hname. unfold EditorApplet._dispatch, AppletDialog._dispatch, _canon.
  cbn [key ctrl alt shift meta plain_key]. rewrite Hname.
  destruct m, with_shift; reflexivity.
Qed.

Lemma movement_keys_move_witness :
  Selection.is_active
    (Dialog.selection
       (EditorApplet.buffer
          (exec (EditorApplet._dispatch (λ _, true) (λ s, s) (plain_key "Left" true))
                (EditorApplet.mk abcd_at_2 None ∅))))
  = true.
Proof.
  rewrite (movement_keys_move (λ _, true) (λ s, s) left "Left" true); reflexivity.
Defined.

Lemma movement_keys_enter
    (isprintable : string → bool) (upper : string → string) :
  EditorApplet._dispatch isprintable upper (plain_key "enter" false)
  = EditorApplet.on_buffer Dialog.split_line.
Proof. reflexivity. Qed.

Lemma str_take_all (text : string) : str_take (String.length text) text = text.
Proof. induction text as [|c text IH]; [done|]. simpl. by rewrite IH. Qed.

Lemma str_drop_all (text : string) :
  str_drop (String.length text) text = EmptyString.
Proof. induction text as [|c text IH]; [done|]. simpl. by rewrite IH. Qed.

(** Typing at the end of a one-line buffer appends. *)
Lemma type_at_end
    (isprintable : string → bool) (upper : string → string)
    (k text : string) (fname : option string) (fs : gmap string string) :
  String.length k = 1 →
  isprintable k = true →
  EditorApplet._dispatch isprintable upper (plain_key k false)
    (EditorApplet.mk
       (Dialog.mk [Some text] (Some 0) (Some (String.length text)) Selection.init)
       fname fs)
  = (EditorApplet.mk
       (Dialog.mk [Some (text +:+ k)] (Some 0) (Some (String.length (text +:+ k)))
                  Selection.init)
       fname fs, Ok tt).
Proof.
  intros Hlen Hprintable.
  rewrite typing_inserts_character_aux by done.
  cbn [key shift plain_key]. rewrite Hprintable.
  unfold EditorApplet.on_buffer. cbn [EditorApplet.buffer].
  rewrite (insert_char_at k _ 0 (String.length text) (Some text)) by done.
  cbn [Dialog._unnamed Dialog.selection EditorApplet._filename EditorApplet.files
       or_empty default list_insert].
  rewrite str_take_all, str_drop_all, append_empty_r.
  by rewrite length_append, Hlen.
Qed.

Lemma type_all_at_end
    (isprintable : string → bool) (upper : string → string)
    (ks : list string) (text : string) (fname : option string)
    (fs : gmap string string) :
  Forall (λ k, String.length k = 1 ∧ isprintable k = true) ks →
  run_all ((λ k, EditorApplet._dispatch isprintable upper (plain_key k false)) <$> ks)
    (EditorApplet.mk
       (Dialog.mk [Some text] (Some 0) (Some (String.length text)) Selection.init)
       fname fs)
  = (EditorApplet.mk
       (Dialog.mk [Some (text +:+ concat_text ks)] (Some 0)
                  (Some (String.length (text +:+ concat_text ks))) Selection.init)
       fname fs, Ok tt).
Proof.
  intros Hks. revert text.
  induction Hks as [|k ks [Hlen Hprintable] _ IH]; intros text.
  - simpl. by rewrite append_empty_r.
  - rewrite fmap_cons.
    rewrite run_all_cons
      by (unfold outcome; by rewrite (type_at_end _ _ k text)).
    unfold exec. rewrite (type_at_end _ _ k text) by done. simpl.
    rewrite IH. simpl. by rewrite append_assoc.
Qed.

(** Typing printable single characters into a new editor and pressing
    enter leaves two lines: the characters in the order typed, and an
    empty line with the cursor at its start. *)
Theorem typing_then_enter
    (isprintable : string → bool) (upper : string → string) (ks : list string) :
  Forall (λ k, String.length k = 1 ∧ isprintable k = true) ks →
  let keys := (λ k, plain_key k false) <$> ks in
  let e := exec (run_all (EditorApplet._dispatch isprintable upper
                          <$> keys ++ [plain_key "enter" false]))
                EditorApplet.init in
  outcome (run_all (EditorApplet._dispatch isprintable upper
                    <$> keys ++ [plain_key "enter" false]))
          EditorApplet.init = Ok tt
  ∧ Dialog.lines (EditorApplet.buffer e) = [concat_text ks; EmptyString]
  ∧ cursor (EditorApplet.buffer e) = (Some 1, Some 0).
Proof.
  intros Hks keys e. subst keys e.
  assert (Hrun : ∀ (calls rest : list (M EditorApplet.t unit)) s s',
            run_all calls s = (s', Ok tt) →
            run_all (calls ++ rest) s = run_all rest s').
  { induction calls as [|m calls IH]; intros rest s s'; simpl.
    - by intros [= ->].
    - unfold bind. destruct (m s) as [s1 [[]|err]]; [|done]. apply IH. }
  pose proof (type_all_at_end isprintable upper ks EmptyString None ∅ Hks) as Htyped.
  rewrite append_empty_l in Htyped.
  unfold outcome, exec. rewrite fmap_app, <- list_fmap_compose.
  rewrite (Hrun _ _ _ _ Htyped).
  assert (Hsplit : Dialog.split_line
            (Dialog.mk [Some (concat_text ks)] (Some 0)
                       (Some (String.length (concat_text ks))) Selection.init)
            = (Dialog.mk [Some (concat_text ks); Some EmptyString] (Some 1) (Some 0)
                         Selection.init, Ok tt)).
  { rewrite (split_line_at _ 0 (Some (concat_text ks))) by done.
    cbn [Dialog._unnamed Dialog.cursor_offset Dialog.selection or_empty default
         slice_to slice_from take drop app Nat.add].
    by rewrite str_take_all, str_drop_all. }
  cbn [run_all fmap list_fmap]. unfold bind.
  rewrite (movement_keys_enter isprintable upper).
  unfold EditorApplet.on_buffer. cbn [EditorApplet.buffer].
  rewrite Hsplit. done.
Qed.

Lemma typing_then_enter_witness :
  Dialog.lines
    (EditorApplet.buffer
       (exec (run_all (EditorApplet._dispatch (λ _, true) (λ s, s)
                       <$> ((λ k, plain_key k false) <$> ["h"; "i"]%string)
                           ++ [plain_key "enter" false]))
             EditorApplet.init))
  = ["hi"; ""]%string.
Proof.
  destruct (typing_then_enter (λ _, true) (λ s, s) ["h"; "i"]%string)
    as (_ & Hlines & _); [repeat constructor|exact Hlines].
Defined.

(** ** Saving *)

(** Control+S, in any letter case, saves under the remembered file name,
    or under the default name when there is none or shift is held.
    Saving writes the joined lines to that file and remembers its name;
    the buffer and every other file are untouched, and saving again
    changes nothing more. *)
Theorem save_writes_only_its_file
    (isprintable : string → bool) (upper : string → string)
    (mk : ModifiedKey) (e : EditorApplet.t) :
  lower (key mk) = "s"%string →
  ctrl mk = true → alt mk = false → meta mk = false →
  let name := if shift mk then EditorApplet.DEFAULT_NAME
              else default EditorApplet.DEFAULT_NAME (EditorApplet._filename e) in
  let e' := EditorApplet.command_save mk e in
  EditorApplet._dispatch isprintable upper mk e = (e', Ok tt)
  ∧ EditorApplet._filename e' = Some name
  ∧ EditorApplet.files e' !! name = Some (EditorApplet.saved_text (EditorApplet.buffer e))
  ∧ (∀ other, other ≠ name →
       EditorApplet.files e' !! other = EditorApplet.files e !! other)
  ∧ EditorApplet.buffer e' = EditorApplet.buffer e
  ∧ EditorApplet.command_save mk e' = e'.
Proof.
  intros Hkey Hctrl Halt Hmeta name e'.
  assert (Hname : ∀ x, match shift mk, EditorApplet._filename x with
                       | false, Some f => f
                       | _, _ => EditorApplet.DEFAULT_NAME
                       end
                       = if shift mk then EditorApplet.DEFAULT_NAME
                         else default EditorApplet.DEFAULT_NAME
                                (EditorApplet._filename x)).
  { intros x. by destruct (shift mk), (EditorApplet._filename x). }
  assert (He' : e' = EditorApplet.mk (EditorApplet.buffer e) (Some name)
                       (<[name := EditorApplet.saved_text (EditorApplet.buffer e)]>
                          (EditorApplet.files e))).
  { subst e' name. unfold EditorApplet.command_save. by rewrite Hname. }
  split.
  { unfold EditorApplet._dispatch, AppletDialog._dispatch, _canon.
    rewrite Hkey, Hctrl, Halt, Hmeta. by destruct (shift mk). }
  rewrite He'. simpl. split; [done|]. split; [apply lookup_insert_eq|].
  split; [by intros other Hother; apply lookup_insert_ne|]. split; [done|].
  unfold EditorApplet.command_save. rewrite Hname. simpl.
  assert (Hsame : (if shift mk then EditorApplet.DEFAULT_NAME else name) = name)
    by (subst name; by destruct (shift mk)).
  rewrite Hsame. by rewrite insert_insert_eq.
Qed.

Lemma save_writes_only_its_file_witness :
  EditorApplet.files
    (exec (EditorApplet._dispatch (λ _, true) (λ s, s)
             {| key := "S"; ctrl := true; alt := false; shift := true; meta := false |})
          (EditorApplet.mk ab_c (Some "notes.txt"%string) ∅))
  !! EditorApplet.DEFAULT_NAME
  = Some (String "a" (String "b" (String "010" (String "c" EmptyString)))).
Proof.
  destruct (save_writes_only_its_file (λ _, true) (λ s, s)
              {| key := "S"; ctrl := true; alt := false; shift := true; meta := false |}
              (EditorApplet.mk ab_c (Some "notes.txt"%string) ∅))
    as (Hdispatch & _ & Hfile & _); [reflexivity..|].
  unfold exec. rewrite Hdispatch. exact Hfile.
Defined.

(** * Further properties of the router *)

Section RouterFacts.
Context {klass applet : Type} (construct : klass → string → applet).
Implicit Types a : Anchor.t klass applet.

(** Registering a name that already has a class raises [ValueError] and
    leaves the router as it was; a new name is added to the classes and
    nothing else changes. *)
Theorem register_applet_rejects_duplicates a (name : string) (k : klass) :
  (is_Some (Anchor._applet_classes a !! name) →
   ∃ msg, Anchor.register_applet name k a = (a, Raise (ValueError msg)))
  ∧ (Anchor._applet_classes a !! name = None →
     Anchor.register_applet name k a
     = (Anchor.mk (Anchor.applets a) (<[name := k]> (Anchor._applet_classes a))
                  (Anchor._active_name a) (Anchor.effects a), Ok tt)).
Proof.
  unfold Anchor.register_applet, bind, get. split.
  - intros [k0 Hk0]. rewrite Hk0. by eexists.
  - by intros ->.
Qed.

Lemma activate_live a (name : string) (k : klass) (ap : applet) :
  Anchor._applet_classes a !! name = Some k →
  Anchor.applets a !! name = Some ap →
  Anchor.activate construct name a
  = (Anchor.mk (Anchor.applets a) (Anchor._applet_classes a) (Some name)
       (Anchor.effects a
        ++ match Anchor.pump_target a with
           | Some active => [Anchor.on_deactivate active]
           | None => []
           end
        ++ [Anchor.on_activate name]), Ok tt).
Proof.
  intros Hk Hap.
  unfold Anchor.activate, Anchor.pump_target, Anchor.emit, Anchor.set_applets,
    Anchor.set_active_name, modify, bind, get.
  rewrite Hk, Hap. simpl.
  destruct (Anchor._active_name a) as [active|]; simpl.
  - destruct (bool_decide (active ≠ EmptyString)
              && bool_decide (is_Some (Anchor.applets a !! active))); simpl;
      rewrite Hap; simpl; by rewrite <- ?app_assoc.
  - by rewrite Hap.
Qed.

Lemma activate_first a (name : string) (k : klass) :
  Anchor._applet_classes a !! name = Some k →
  Anchor.applets a !! name = None →
  Anchor.activate construct name a
  = (Anchor.mk (<[name := construct k name]> (Anchor.applets a))
       (Anchor._applet_classes a) (Some name)
       (Anchor.effects a ++ [Anchor.start name]
        ++ match Anchor.pump_target
                   (Anchor.mk (<[name := construct k name]> (Anchor.applets a))
                      (Anchor._applet_classes a) (Anchor._active_name a)
                      (Anchor.effects a)) with
           | Some active => [Anchor.on_deactivate active]
           | None => []
           end
        ++ [Anchor.on_activate name]), Ok tt).
Proof.
  intros Hk Hap.
  unfold Anchor.activate, Anchor.pump_target, Anchor.emit, Anchor.set_applets,
    Anchor.set_active_name, modify, bind, get.
  rewrite Hk, Hap. simpl.
  destruct (Anchor._active_name a) as [active|]; simpl.
  - destruct (bool_decide (active ≠ EmptyString)
              && bool_decide (is_Some (<[name:=construct k name]> (Anchor.applets a)
                                       !! active))); simpl;
      rewrite lookup_insert_eq; simpl; by rewrite <- ?app_assoc.
  - rewrite lookup_insert_eq. simpl. by rewrite <- app_assoc.
Qed.

(** The first [activate] of a registered name builds one instance from
    its class and starts it; a later one finds the instance and neither
    rebuilds nor restarts it.  Either way the applet that held the focus,
    if it is live, gets [on_deactivate] (also when it is the one being
    activated) and then the named applet gets [on_activate]. *)
Theorem activate_builds_once a (name : string) (k : klass) :
  Anchor._applet_classes a !! name = Some k →
  let hooks a0 :=
    match Anchor.pump_target a0 with
    | Some active => [Anchor.on_deactivate active]
    | None => []
    end ++ [Anchor.on_activate name] in
  let a' := exec (Anchor.activate construct name) a in
  outcome (Anchor.activate construct name) a = Ok tt
  ∧ match Anchor.applets a !! name with
    | Some ap =>
        Anchor.applets a' = Anchor.applets a
        ∧ Anchor.effects a' = Anchor.effects a ++ hooks a
    | None =>
        Anchor.applets a' = <[name := construct k name]> (Anchor.applets a)
        ∧ Anchor.effects a'
          = Anchor.effects a ++ [Anchor.start name]
            ++ hooks (Anchor.mk (<[name := construct k name]> (Anchor.applets a))
                        (Anchor._applet_classes a) (Anchor._active_name a)
                        (Anchor.effects a))
    end.
Proof.
  intros Hk hooks a'. subst hooks a'. unfold outcome, exec.
  destruct (Anchor.applets a !! name) as [ap|] eqn:Hap.
  - by rewrite (activate_live a name k ap).
  - by rewrite (activate_first a name k).
Qed.

(** After [activate] of a registered name other than the empty string
    that applet holds the focus: the pump hands every key to it.  The
    classes are unchanged and so is every other applet. *)
Theorem activate_takes_focus a (name : string) (k : klass) :
  Anchor._applet_classes a !! name = Some k →
  name ≠ EmptyString →
  let a' := exec (Anchor.activate construct name) a in
  Anchor._active_name a' = Some name
  ∧ Anchor.pump_target a' = Some name
  ∧ Anchor._applet_classes a' = Anchor._applet_classes a
  ∧ (∀ other, other ≠ name →
       Anchor.applets a' !! other = Anchor.applets a !! other).
Proof.
  intros Hk Hname a'. subst a'. unfold exec.
  destruct (Anchor.applets a !! name) as [ap|] eqn:Hap.
  - rewrite (activate_live a name k ap) by done. simpl.
    split; [done|]. split; [|done].
    unfold Anchor.pump_target. simpl.
    rewrite bool_decide_eq_true_2 by done.
    by rewrite bool_decide_eq_true_2 by (by rewrite Hap).
  - rewrite (activate_first a name k) by done. simpl.
    split; [done|]. split.
    + unfold Anchor.pump_target. simpl.
      rewrite bool_decide_eq_true_2 by done.
      by rewrite bool_decide_eq_true_2 by (by rewrite lookup_insert_eq).
    + split; [done|]. intros other Hother. by rewrite lookup_insert_ne.
Qed.

(** An applet registered under the empty string can be activated, and
    [activate] returns normally and records it as active, but the pump
    then forwards no key: an empty active name counts as no focus. *)
Theorem empty_name_never_receives_keys a (k : klass) :
  Anchor._applet_classes a !! EmptyString = Some k →
  let a' := exec (Anchor.activate construct EmptyString) a in
  outcome (Anchor.activate construct EmptyString) a = Ok tt
  ∧ Anchor._active_name a' = Some EmptyString
  ∧ is_Some (Anchor.applets a' !! EmptyString)
  ∧ Anchor.pump_target a' = None.
Proof.
  intros Hk a'. subst a'. unfold outcome, exec.
  destruct (Anchor.applets a !! EmptyString) as [ap|] eqn:Hap.
  - rewrite (activate_live a EmptyString k ap) by done. simpl.
    by rewrite Hap.
  - rewrite (activate_first a EmptyString k) by done. simpl.
    by rewrite lookup_insert_eq.
Qed.

End RouterFacts.

Lemma register_applet_rejects_duplicates_witness :
  ∃ msg, Anchor.register_applet "editor" tt editor_only
         = (editor_only, Raise (ValueError msg)).
Proof.
  destruct (register_applet_rejects_duplicates editor_only "editor" tt)
    as [Hdup _].
  apply Hdup. by eexists.
Defined.

Lemma activate_builds_once_witness :
  Anchor.applets (exec (Anchor.activate (λ _ name, name) "editor") editor_only)
  = Anchor.applets editor_only
  ∧ Anchor.effects (exec (Anchor.activate (λ _ name, name) "editor") editor_only)
    = [Anchor.start "editor"; Anchor.on_activate "editor";
       Anchor.on_deactivate "editor"; Anchor.on_activate "editor"]%string.
Proof.
  destruct (activate_builds_once (λ _ name, name) editor_only "editor" tt)
    as [_ Hlive]; [reflexivity|].
  exact Hlive.
Defined.

Lemma activate_takes_focus_witness :
  Anchor.pump_target (exec (Anchor.activate (λ _ name, name) "editor") editor_only)
  = Some "editor"%string.
Proof.
  destruct (activate_takes_focus (λ _ name, name) editor_only "editor" tt)
    as (_ & Hpump & _); [reflexivity|discriminate|exact Hpump].
Defined.

Lemma empty_name_never_receives_keys_witness :
  Anchor.pump_target
    (exec (Anchor.activate (λ _ name, name) "")
          (exec (Anchor.register_applet "" tt) (Anchor.init : Anchor.t unit string)))
  = None.
Proof.
  destruct (empty_name_never_receives_keys (λ _ name, name)
              (exec (Anchor.register_applet "" tt)
                    (Anchor.init : Anchor.t unit string)) tt)
    as (_ & _ & _ & Hpump); [reflexivity|exact Hpump].
Defined.


